(** * webrtc-demo: the audio resampler and the connection lifecycle

    A shallow embedding of [AudioTranscription]
    (audioInterface/src/routes/index.tsx): the pure function
    [resampleAudio] and the React component's lifecycle handlers
    ([cleanup], [connect], [startRecording], [stopRecording],
    [disconnect] and the callbacks [connect] installs on the peer
    connection and its data channels).

    Number models.  A JavaScript number is an IEEE-754 double, and a
    [Float32Array] holds single-precision numbers.  [resampleAudio] is
    embedded twice.

    - Over [Num], an exact rational or one of +Infinity, -Infinity and
      NaN, with the JavaScript operators on those values.  This is the
      arithmetic the code performs wherever no operation rounds: the
      clamp and scaling of a sample (a 24-bit significand times 32767 or
      32768 is exact in a double), the path taken when the two rates are
      equal, and the interpolation path when the ratio is an integer.
      The quantization rule and the properties of those paths are stated
      over [Num].

    - Over IEEE-754 doubles ([Double]), with the rounding of every
      operation, the rounding to single precision of a store into a
      [Float32Array], signed zeros, subnormals, and the limit on the
      length of a typed array.  The properties of the interpolation path
      at arbitrary rates are stated over [Double]. *)

From Stdlib Require Import ZArith QArith Qround Qpower Lqa Lia Bool String SpecFloat.
From stdpp Require Import base list.

Local Open Scope Z_scope.

(** ** Numbers *)

Module Num.

Inductive Num : Type :=
| Fin (q : Q)
| PosInf
| NegInf
| NaN.

Definition ofZ (z : Z) : Num := Fin (inject_Z z).
Definition ofNat (n : nat) : Num := ofZ (Z.of_nat n).

Definition neg (x : Num) : Num :=
  match x with
  | Fin q => Fin (- q)
  | PosInf => NegInf
  | NegInf => PosInf
  | NaN => NaN
  end.

(** [x + y] *)
Definition add (x y : Num) : Num :=
  match x, y with
  | NaN, _ | _, NaN => NaN
  | Fin a, Fin b => Fin (a + b)
  | PosInf, NegInf | NegInf, PosInf => NaN
  | PosInf, _ | _, PosInf => PosInf
  | NegInf, _ | _, NegInf => NegInf
  end.

(** [x - y] *)
Definition sub (x y : Num) : Num := add x (neg y).

(** An infinity of the given sign times the finite [q]. *)
Definition inf_times (positive_inf : bool) (q : Q) : Num :=
  match q ?= 0 with
  | Eq => NaN
  | Gt => if positive_inf then PosInf else NegInf
  | Lt => if positive_inf then NegInf else PosInf
  end%Q.

(** [x * y] *)
Definition mul (x y : Num) : Num :=
  match x, y with
  | NaN, _ | _, NaN => NaN
  | Fin a, Fin b => Fin (a * b)
  | PosInf, Fin q | Fin q, PosInf => inf_times true q
  | NegInf, Fin q | Fin q, NegInf => inf_times false q
  | PosInf, PosInf | NegInf, NegInf => PosInf
  | PosInf, NegInf | NegInf, PosInf => NegInf
  end.

(** [x / y]; a zero divisor is +0. *)
Definition div (x y : Num) : Num :=
  match x, y with
  | NaN, _ | _, NaN => NaN
  | Fin a, Fin b =>
      if Qeq_bool b 0 then
        match a ?= 0 with Eq => NaN | Gt => PosInf | Lt => NegInf end%Q
      else Fin (a / b)
  | Fin _, (PosInf | NegInf) => Fin 0
  | PosInf, Fin q => if Qle_bool 0 q then PosInf else NegInf
  | NegInf, Fin q => if Qle_bool 0 q then NegInf else PosInf
  | (PosInf | NegInf), (PosInf | NegInf) => NaN
  end.

(** [x < y] *)
Definition lt (x y : Num) : bool :=
  match x, y with
  | NaN, _ | _, NaN => false
  | Fin a, Fin b => negb (Qle_bool b a)
  | _, NegInf => false
  | NegInf, _ => true
  | PosInf, _ => false
  | _, PosInf => true
  end.

(** [x === y] *)
Definition strict_eq (x y : Num) : bool :=
  match x, y with
  | Fin a, Fin b => Qeq_bool a b
  | PosInf, PosInf | NegInf, NegInf => true
  | _, _ => false
  end.

(** [Math.min(x, y)] and [Math.max(x, y)]: NaN if either argument is. *)
Definition Math_min (x y : Num) : Num :=
  match x, y with
  | NaN, _ | _, NaN => NaN
  | _, _ => if lt y x then y else x
  end.

Definition Math_max (x y : Num) : Num :=
  match x, y with
  | NaN, _ | _, NaN => NaN
  | _, _ => if lt x y then y else x
  end.

(** [Math.floor(x)] *)
Definition Math_floor (x : Num) : Num :=
  match x with
  | Fin q => ofZ (Qfloor q)
  | _ => x
  end.

(** [Math.round(x)]: the nearest integer, a tie going towards +Infinity. *)
Definition Math_round (x : Num) : Num :=
  match x with
  | Fin q => ofZ (Qfloor (q + (1 # 2)))
  | _ => x
  end.

(** The integer part of a rational, rounding towards zero. *)
Definition Qtruncate (q : Q) : Z :=
  if Qle_bool 0 q then Qfloor q else Qceiling q.

(** [ToInt16]: the conversion applied by a store into an [Int16Array]. *)
Definition ToInt16 (x : Num) : Z :=
  match x with
  | Fin q =>
      let int16bit := Qtruncate q mod 65536 in
      if 32768 <=? int16bit then int16bit - 65536 else int16bit
  | _ => 0
  end.

(** The value an [undefined] operand takes in arithmetic is NaN. *)
Definition ToNumber (v : option Num) : Num :=
  match v with
  | Some x => x
  | None => NaN
  end.

End Num.
Export Num.

(** ** Typed arrays *)

(** A [Float32Array] is a list of numbers, an [Int16Array] a list of
    integers of the signed 16-bit range. *)
Abbreviation Float32Array := (list Num).
Abbreviation Int16Array := (list Z).

(** [new Float32Array(len)]: [ToIndex] maps NaN to 0 and truncates; a
    negative or infinite length is a RangeError ([None]).  The array is
    zero-filled.  Lists are unbounded: the limit on the size of an
    allocation is modelled by [Double.new_Float32Array]. *)
Definition new_Float32Array (len : Num) : option Float32Array :=
  match len with
  | NaN => Some []
  | Fin q =>
      let index := Qtruncate q in
      if index <? 0 then None
      else Some (replicate (Z.to_nat index) (Fin 0))
  | PosInf | NegInf => None
  end.

(** [new Int16Array(length)] for the length of an existing array. *)
Definition new_Int16Array (length : nat) : Int16Array := replicate length 0.

(** [a[k]] for a numeric key: the element when [k] is an integer inside the
    array, [undefined] ([None]) otherwise. *)
Definition get (a : Float32Array) (k : Num) : option Num :=
  match k with
  | Fin q =>
      if Qeq_bool (inject_Z (Qfloor q)) q && (0 <=? Qfloor q)
      then a !! Z.to_nat (Qfloor q)
      else None
  | _ => None
  end.

(** [for (let i = 0; i < count; i++) body], threading the array being
    filled; [for_loop body i count a] runs the [count] iterations that
    start at index [i]. *)
Fixpoint for_loop {A : Type} (body : nat -> A -> A) (i count : nat) (a : A) : A :=
  match count with
  | O => a
  | S count' => for_loop body (S i) count' (body i a)
  end.

(** ** resampleAudio *)

(** The statement both conversion loops run on a sample:
    [s = Math.max(-1, Math.min(1, x)); int16Data[i] = s < 0 ? s * 0x8000 : s * 0x7FFF]. *)
Definition quantize (x : Num) : Z :=
  let s := Math_max (ofZ (-1)) (Math_min (ofZ 1) x) in
  ToInt16 (if lt s (ofZ 0) then mul s (ofZ 32768) else mul s (ofZ 32767)).

(** The float-to-int16 loop over an array [data]. *)
Definition convert_loop (data : Float32Array) : Int16Array :=
  for_loop (fun i int16Data => <[i := quantize (ToNumber (data !! i))]> int16Data)
    0 (length data) (new_Int16Array (length data)).

(** The interpolation path without rounding: [ratio], the products
    [i * ratio] and the interpolated samples are exact rationals.  The
    doubles of the code hold these values when the ratio is an integer;
    [Double] below is the same path with the rounding of each operation
    and of the store. *)
Section Interpolation.
Variable inputData : Float32Array.
Variable ratio : Num.

Definition srcIndex (i : nat) : Num := mul (ofNat i) ratio.
Definition srcIndexFloor (i : nat) : Num := Math_floor (srcIndex i).
Definition srcIndexCeil (i : nat) : Num :=
  Math_min (add (srcIndexFloor i) (ofZ 1)) (sub (ofNat (length inputData)) (ofZ 1)).
Definition weight (i : nat) : Num := sub (srcIndex i) (srcIndexFloor i).

(** [inputData[srcIndexFloor] * (1 - t) + inputData[srcIndexCeil] * t] *)
Definition interpolate (i : nat) : Num :=
  add (mul (ToNumber (get inputData (srcIndexFloor i))) (sub (ofZ 1) (weight i)))
      (mul (ToNumber (get inputData (srcIndexCeil i))) (weight i)).

(** The interpolation loop over the zero-filled [outputData].  Its bound
    is [outputLength]; whenever the allocation succeeded, the indices
    below that bound are the indices of [outputData]. *)
Definition interpolation_loop (outputData : Float32Array) : Float32Array :=
  for_loop (fun i out => <[i := interpolate i]> out) 0 (length outputData) outputData.
End Interpolation.

Inductive Outcome : Type :=
| Returned (int16Data : Int16Array)
| RangeError.

Definition outputLength (inputData : Float32Array) (ratio : Num) : Num :=
  Math_round (div (ofNat (length inputData)) ratio).

Definition resampleAudio (inputData : Float32Array)
    (sourceSampleRate targetSampleRate : Num) : Outcome :=
  if strict_eq sourceSampleRate targetSampleRate then
    Returned (convert_loop inputData)
  else
    let ratio := div sourceSampleRate targetSampleRate in
    match new_Float32Array (outputLength inputData ratio) with
    | None => RangeError
    | Some outputData =>
        Returned (convert_loop (interpolation_loop inputData ratio outputData))
    end.

(** The quantization rule in the words of the specification (4.1): clamp
    to [-1,1]; a value below 0 is scaled by 32768, a value of 0 or more by
    32767; the integer sample is the scaled value with its fraction
    dropped. *)
Definition clamp (q : Q) : Q :=
  if Qle_bool q (-1) then -1 else if Qle_bool 1 q then 1 else q.

Definition quantize_spec (q : Q) : Z :=
  let c := clamp q in
  Qtruncate (if Qlt_le_dec c 0 then c * 32768 else c * 32767).

(** The number of output samples for a block of [n] samples and a positive
    ratio [r]. *)
Definition outputCount (n : nat) (r : Q) : Z :=
  Qfloor (inject_Z (Z.of_nat n) / r + (1 # 2)).

(** A block of six samples used in the examples. *)
Definition block6 : Float32Array :=
  [Fin 1; Fin 1; Fin (-1); Fin (-1); Fin 0; Fin (1 # 2)].

(** ** resampleAudio in IEEE-754 arithmetic *)

(** The interpolation path of [resampleAudio] rounds: [ratio], the
    quotient [inputData.length / ratio], the products [i * ratio] and the
    interpolated sample are doubles, and the store into [outputData]
    rounds the sample to single precision.  [Double] is the same
    function, statement by statement, over the binary64 and binary32
    formats of IEEE 754 as specified by the standard library's
    [SpecFloat] (round to nearest, ties to even; signed zeros,
    subnormals, infinities and NaN).  It is the model used wherever a
    property depends on the interpolation path. *)
Module Double.

(** A JavaScript number. *)
Abbreviation double := spec_float.

Definition mul : double -> double -> double := SFmul 53 1024.
Definition div : double -> double -> double := SFdiv 53 1024.
Definition add : double -> double -> double := SFadd 53 1024.
Definition sub : double -> double -> double := SFsub 53 1024.
Definition lt : double -> double -> bool := SFltb.
Definition strict_eq : double -> double -> bool := SFeqb.

(** The double nearest to an integer ([inputData.length], the loop counter
    and the literals of the source are below 2^53 and exact), and the
    double [m * 2^e], used to write samples. *)
Definition ofZ (z : Z) : double := binary_normalize 53 1024 z 0 false.
Definition ofNat (n : nat) : double := ofZ (Z.of_nat n).
Definition dyadic (m e : Z) : double := binary_normalize 53 1024 m e false.

(** [Math.floor]: a double with a non-negative exponent is an integer;
    otherwise the mantissa is divided, rounding down. *)
Definition Math_floor (x : double) : double :=
  match x with
  | S754_finite s m e =>
      if 0 <=? e then x else ofZ (cond_Zopp s (Z.pos m) / 2 ^ (- e))
  | _ => x
  end.

(** [Math.round]: the integer nearest to [x], a tie going towards
    +Infinity, that is [floor(x + 1/2)] computed exactly; a result of
    zero keeps the sign of [x]. *)
Definition Math_round (x : double) : double :=
  match x with
  | S754_finite s m e =>
      if 0 <=? e then x
      else
        let k := (2 * cond_Zopp s (Z.pos m) + 2 ^ (- e)) / 2 ^ (1 - e) in
        if k =? 0 then S754_zero s else ofZ k
  | _ => x
  end.

Definition is_nan (x : double) : bool :=
  match x with S754_nan => true | _ => false end.

(** [Math.min] and [Math.max] of two numbers: NaN if either is NaN, and
    -0 counts as less than +0. *)
Definition Math_min (x y : double) : double :=
  if is_nan x || is_nan y then S754_nan
  else if lt x y then x
  else if lt y x then y
  else match x with S754_zero true => x | _ => y end.

Definition Math_max (x y : double) : double :=
  if is_nan x || is_nan y then S754_nan
  else if lt y x then x
  else if lt x y then y
  else match x with S754_zero false => x | _ => y end.

(** [ToIntegerOrInfinity]: NaN and the zeros give 0, a finite number
    loses its fraction, an infinity ([None]) stays infinite. *)
Definition truncate (x : double) : option Z :=
  match x with
  | S754_zero _ | S754_nan => Some 0
  | S754_infinity _ => None
  | S754_finite s m e =>
      Some (cond_Zopp s (if 0 <=? e then Z.pos m * 2 ^ e else Z.pos m / 2 ^ (- e)))
  end.

(** [ToInt16], the conversion of a store into an [Int16Array]. *)
Definition ToInt16 (x : double) : Z :=
  match truncate x with
  | Some int =>
      let int16bit := int mod 65536 in
      if 32768 <=? int16bit then int16bit - 65536 else int16bit
  | None => 0
  end.

(** The conversion of a store into a [Float32Array]: the double is
    rounded to binary32; the value read back is that single-precision
    number as a double. *)
Definition fround (x : double) : double :=
  match x with
  | S754_finite s m e =>
      match binary_round 24 128 s m e with
      | S754_finite s' m' e' => binary_round 53 1024 s' m' e'
      | single => single
      end
  | _ => x
  end.

Abbreviation Float32Array := (list double).

(** [undefined] in an arithmetic expression is NaN. *)
Definition ToNumber (v : option double) : double :=
  match v with Some x => x | None => S754_nan end.

(** A numeric key is an index when it is a non-negative integer (-0 is
    the key 0). *)
Definition integer_index (k : double) : option nat :=
  match k with
  | S754_zero _ => Some 0%nat
  | S754_finite false m e =>
      if 0 <=? e then Some (Z.to_nat (Z.pos m * 2 ^ e))
      else if Z.pos m mod 2 ^ (- e) =? 0 then Some (Z.to_nat (Z.pos m / 2 ^ (- e)))
      else None
  | _ => None
  end.

(** [a[k]]: the element at an index inside the array, [undefined]
    ([None]) for any other key. *)
Definition get (a : Float32Array) (k : double) : option double :=
  match integer_index k with
  | Some i => a !! i
  | None => None
  end.

(** [s = Math.max(-1, Math.min(1, x)); int16Data[i] = s < 0 ? s * 0x8000 : s * 0x7FFF] *)
Definition quantize (x : double) : Z :=
  let s := Math_max (ofZ (-1)) (Math_min (ofZ 1) x) in
  ToInt16 (if lt s (ofZ 0) then mul s (ofZ 32768) else mul s (ofZ 32767)).

Definition convert_loop (data : Float32Array) : Int16Array :=
  for_loop (fun i int16Data => <[i := quantize (ToNumber (data !! i))]> int16Data)
    0 (length data) (new_Int16Array (length data)).

Section Engine.
(** The largest number of elements for which the engine allocates a
    typed array; a longer one is refused with a RangeError. *)
Variable maxLength : Z.

(** [new Float32Array(len)]: [ToIndex] refuses a negative length and one
    above 2^53 - 1, the allocation a length above [maxLength]; the array
    is filled with +0. *)
Definition new_Float32Array (len : double) : option Float32Array :=
  match truncate len with
  | Some index =>
      if (0 <=? index) && (index <=? 2 ^ 53 - 1) && (index <=? maxLength)
      then Some (replicate (Z.to_nat index) (S754_zero false))
      else None
  | None => None
  end.

Section Interpolation.
Variable inputData : Float32Array.
Variable ratio : double.

Definition srcIndex (i : nat) : double := mul (ofNat i) ratio.
Definition srcIndexFloor (i : nat) : double := Math_floor (srcIndex i).
Definition srcIndexCeil (i : nat) : double :=
  Math_min (add (srcIndexFloor i) (ofZ 1)) (sub (ofNat (length inputData)) (ofZ 1)).
Definition weight (i : nat) : double := sub (srcIndex i) (srcIndexFloor i).

(** [inputData[srcIndexFloor] * (1 - t) + inputData[srcIndexCeil] * t] *)
Definition interpolate (i : nat) : double :=
  add (mul (ToNumber (get inputData (srcIndexFloor i))) (sub (ofZ 1) (weight i)))
      (mul (ToNumber (get inputData (srcIndexCeil i))) (weight i)).

(** The interpolation loop: [outputData[i] = ...] stores the sample
    rounded to single precision.  The loop runs while [i < outputLength];
    the allocation succeeded, so [outputLength] is NaN, a zero or a
    positive integer, and these are the indices of [outputData]. *)
Definition interpolation_loop (outputData : Float32Array) : Float32Array :=
  for_loop (fun i out => <[i := fround (interpolate i)]> out) 0 (length outputData) outputData.
End Interpolation.

Definition outputLength (inputData : Float32Array) (ratio : double) : double :=
  Math_round (div (ofNat (length inputData)) ratio).

Definition resampleAudio (inputData : Float32Array)
    (sourceSampleRate targetSampleRate : double) : Outcome :=
  if strict_eq sourceSampleRate targetSampleRate then
    Returned (convert_loop inputData)
  else
    let ratio := div sourceSampleRate targetSampleRate in
    match new_Float32Array (outputLength inputData ratio) with
    | None => RangeError
    | Some outputData =>
        Returned (convert_loop (interpolation_loop inputData ratio outputData))
    end.
End Engine.

(** Inputs used in the examples: a block of five samples, 33/64, 53/64,
    21/64, 11/16 and 7/64, a block of two, 1/2 and -1/4, and the limit
    of 2^32 - 1 elements. *)
Definition block5 : Float32Array :=
  [dyadic 33 (-6); dyadic 53 (-6); dyadic 21 (-6); dyadic 11 (-4); dyadic 7 (-6)].
Definition block2 : Float32Array := [dyadic 1 (-1); dyadic (-1) (-2)].
Definition exampleLimit : Z := 2 ^ 32 - 1.

End Double.

(** The block [Double.block5] with its samples as exact rationals. *)
Definition block5 : Float32Array :=
  [Fin (33 # 64); Fin (53 # 64); Fin (21 # 64); Fin (11 # 16); Fin (7 # 64)].

(** *** The value of a double *)

(** [pow2 e] is the rational 2^e and [val m e] the value m * 2^e of a
    mantissa and an exponent. *)
Definition pow2 (e : Z) : Q := (2 ^ e)%Q.
Arguments pow2 : simpl never.

Definition val (m e : Z) : Q := (inject_Z m * pow2 e)%Q.
Arguments val : simpl never.

(** The bound on the relative error of a rounded result that the proofs
    use, 2^-52. *)
Definition eps : Q := pow2 (-52).
Arguments eps : simpl never.

(** What [binary_round_aux] returns once the mantissa [m] and the exponent
    [e] of the result are known: a zero, the number, or +Infinity when
    the exponent is too large. *)
Definition round_result (m e : Z) : spec_float :=
  match m with
  | Z0 => S754_zero false
  | Z.pos p => if e <=? 971 then S754_finite false p e else S754_infinity false
  | Z.neg _ => S754_nan
  end.

(** [represents x K]: the double [x] is the non-negative integer [K],
    written with a non-negative exponent or with a mantissa that is a
    multiple of the power of two its exponent divides by. *)
Definition represents (x : spec_float) (K : Z) : Prop :=
  match x with
  | S754_zero _ => K = 0
  | S754_finite false m e =>
      (0 <= e /\ K = Z.pos m * 2 ^ e) \/ (e < 0 /\ Z.pos m = K * 2 ^ (- e))
  | _ => False
  end.

(** ** The component state *)

Local Open Scope string_scope.
Local Open Scope list_scope.
Local Open Scope Z_scope.

Inductive ConnectionState : Type :=
| disconnected
| connecting
| connected
| recording
| error.

Global Instance ConnectionState_eq_dec : EqDecision ConnectionState.
Proof. solve_decision. Defined.

(** The browser objects the refs point at are named by handles. *)
Definition Handle := nat.
Bind Scope nat_scope with Handle.

(** What a [catch] receives: an [Error] object with its message, or
    another value. *)
Inductive Thrown : Type :=
| ErrorObject (message : string)
| NotAnError.

(** [error instanceof Error ? error.message : fallback] *)
Definition message_of (e : Thrown) (fallback : string) : string :=
  match e with
  | ErrorObject message => message
  | NotAnError => fallback
  end.

(** The calls the handlers make on React's setters and on the browser
    objects they hold. *)
Inductive Effect : Type :=
| SetConnectionState (st : ConnectionState)
| SetTranscription (text : string)
| SetErrorMessage (message : string)
| ProcessorDisconnect (processor : Handle)
| TracksStop (stream : Handle)
| AudioContextClose (context : Handle)
| PeerConnectionClose (pc : Handle).

(** What the callbacks installed by one call of [connect] close over: the
    [connectionState] of the render the [connect] callback belongs to, and
    the peer connection and channels it created. *)
Record Session : Type := {
  closure_connectionState : ConnectionState;
  session_pc : Handle;
  session_audioChannel : Handle;
  session_transcriptionChannel : Handle
}.

Record App : Type := {
  connectionState : ConnectionState;
  transcription : string;
  errorMessage : string;
  pcRef : option Handle;
  audioChannelRef : option Handle;
  transcriptionChannelRef : option Handle;
  audioContextRef : option Handle;
  mediaStreamRef : option Handle;
  processorRef : option Handle;
  sessions : list Session;
  effects : list Effect
}.

Definition initial : App := {|
  connectionState := disconnected;
  transcription := "";
  errorMessage := "";
  pcRef := None;
  audioChannelRef := None;
  transcriptionChannelRef := None;
  audioContextRef := None;
  mediaStreamRef := None;
  processorRef := None;
  sessions := [];
  effects := []
|}.

Definition perform (e : Effect) (s : App) : App :=
  {| connectionState := connectionState s; transcription := transcription s;
     errorMessage := errorMessage s; pcRef := pcRef s;
     audioChannelRef := audioChannelRef s;
     transcriptionChannelRef := transcriptionChannelRef s;
     audioContextRef := audioContextRef s; mediaStreamRef := mediaStreamRef s;
     processorRef := processorRef s; sessions := sessions s;
     effects := effects s ++ [e] |}.

(** The three state setters. *)
Definition setConnectionState (st : ConnectionState) (s : App) : App :=
  let s := perform (SetConnectionState st) s in
  {| connectionState := st; transcription := transcription s;
     errorMessage := errorMessage s; pcRef := pcRef s;
     audioChannelRef := audioChannelRef s;
     transcriptionChannelRef := transcriptionChannelRef s;
     audioContextRef := audioContextRef s; mediaStreamRef := mediaStreamRef s;
     processorRef := processorRef s; sessions := sessions s;
     effects := effects s |}.

Definition setTranscription (text : string) (s : App) : App :=
  let s := perform (SetTranscription text) s in
  {| connectionState := connectionState s; transcription := text;
     errorMessage := errorMessage s; pcRef := pcRef s;
     audioChannelRef := audioChannelRef s;
     transcriptionChannelRef := transcriptionChannelRef s;
     audioContextRef := audioContextRef s; mediaStreamRef := mediaStreamRef s;
     processorRef := processorRef s; sessions := sessions s;
     effects := effects s |}.

Definition setErrorMessage (message : string) (s : App) : App :=
  let s := perform (SetErrorMessage message) s in
  {| connectionState := connectionState s; transcription := transcription s;
     errorMessage := message; pcRef := pcRef s;
     audioChannelRef := audioChannelRef s;
     transcriptionChannelRef := transcriptionChannelRef s;
     audioContextRef := audioContextRef s; mediaStreamRef := mediaStreamRef s;
     processorRef := processorRef s; sessions := sessions s;
     effects := effects s |}.

(** Assignments to the [current] field of the six refs. *)
Definition set_pcRef (h : option Handle) (s : App) : App :=
  {| connectionState := connectionState s; transcription := transcription s;
     errorMessage := errorMessage s; pcRef := h;
     audioChannelRef := audioChannelRef s;
     transcriptionChannelRef := transcriptionChannelRef s;
     audioContextRef := audioContextRef s; mediaStreamRef := mediaStreamRef s;
     processorRef := processorRef s; sessions := sessions s;
     effects := effects s |}.

Definition set_audioChannelRef (h : option Handle) (s : App) : App :=
  {| connectionState := connectionState s; transcription := transcription s;
     errorMessage := errorMessage s; pcRef := pcRef s;
     audioChannelRef := h;
     transcriptionChannelRef := transcriptionChannelRef s;
     audioContextRef := audioContextRef s; mediaStreamRef := mediaStreamRef s;
     processorRef := processorRef s; sessions := sessions s;
     effects := effects s |}.

Definition set_transcriptionChannelRef (h : option Handle) (s : App) : App :=
  {| connectionState := connectionState s; transcription := transcription s;
     errorMessage := errorMessage s; pcRef := pcRef s;
     audioChannelRef := audioChannelRef s;
     transcriptionChannelRef := h;
     audioContextRef := audioContextRef s; mediaStreamRef := mediaStreamRef s;
     processorRef := processorRef s; sessions := sessions s;
     effects := effects s |}.

Definition set_audioContextRef (h : option Handle) (s : App) : App :=
  {| connectionState := connectionState s; transcription := transcription s;
     errorMessage := errorMessage s; pcRef := pcRef s;
     audioChannelRef := audioChannelRef s;
     transcriptionChannelRef := transcriptionChannelRef s;
     audioContextRef := h; mediaStreamRef := mediaStreamRef s;
     processorRef := processorRef s; sessions := sessions s;
     effects := effects s |}.

Definition set_mediaStreamRef (h : option Handle) (s : App) : App :=
  {| connectionState := connectionState s; transcription := transcription s;
     errorMessage := errorMessage s; pcRef := pcRef s;
     audioChannelRef := audioChannelRef s;
     transcriptionChannelRef := transcriptionChannelRef s;
     audioContextRef := audioContextRef s; mediaStreamRef := h;
     processorRef := processorRef s; sessions := sessions s;
     effects := effects s |}.

Definition set_processorRef (h : option Handle) (s : App) : App :=
  {| connectionState := connectionState s; transcription := transcription s;
     errorMessage := errorMessage s; pcRef := pcRef s;
     audioChannelRef := audioChannelRef s;
     transcriptionChannelRef := transcriptionChannelRef s;
     audioContextRef := audioContextRef s; mediaStreamRef := mediaStreamRef s;
     processorRef := h; sessions := sessions s;
     effects := effects s |}.

Definition add_session (session : Session) (s : App) : App :=
  {| connectionState := connectionState s; transcription := transcription s;
     errorMessage := errorMessage s; pcRef := pcRef s;
     audioChannelRef := audioChannelRef s;
     transcriptionChannelRef := transcriptionChannelRef s;
     audioContextRef := audioContextRef s; mediaStreamRef := mediaStreamRef s;
     processorRef := processorRef s; sessions := sessions s ++ [session];
     effects := effects s |}.

(** ** Releasing resources *)

(** [if (processorRef.current) { processorRef.current.disconnect();
    processorRef.current = null }], and the like for the media stream, the
    audio context and the peer connection. *)
Definition release_processor (s : App) : App :=
  match processorRef s with
  | Some processor => set_processorRef None (perform (ProcessorDisconnect processor) s)
  | None => s
  end.

Definition release_mediaStream (s : App) : App :=
  match mediaStreamRef s with
  | Some stream => set_mediaStreamRef None (perform (TracksStop stream) s)
  | None => s
  end.

Definition release_audioContext (s : App) : App :=
  match audioContextRef s with
  | Some context => set_audioContextRef None (perform (AudioContextClose context) s)
  | None => s
  end.

Definition release_pc (s : App) : App :=
  match pcRef s with
  | Some pc => set_pcRef None (perform (PeerConnectionClose pc) s)
  | None => s
  end.

Definition cleanup (s : App) : App :=
  let s := release_processor s in
  let s := release_mediaStream s in
  let s := release_audioContext s in
  let s := release_pc s in
  let s := set_audioChannelRef None s in
  set_transcriptionChannelRef None s.

(** The release calls [cleanup] makes in a state, in their order. *)
Definition releases (s : App) : list Effect :=
  from_option (fun h => [ProcessorDisconnect h]) [] (processorRef s) ++
  from_option (fun h => [TracksStop h]) [] (mediaStreamRef s) ++
  from_option (fun h => [AudioContextClose h]) [] (audioContextRef s) ++
  from_option (fun h => [PeerConnectionClose h]) [] (pcRef s).

(** ** Recording *)

Definition stopRecording (s : App) : App :=
  let s := release_processor s in
  let s := release_mediaStream s in
  let s := release_audioContext s in
  setConnectionState connected s.

(** How far the set-up of a recording gets once [getUserMedia] has
    settled: the step that throws, with the objects acquired before it, or
    completion. *)
Inductive RecordingSetup : Type :=
| GetUserMediaRejects (e : Thrown)
| AudioContextThrows (stream : Handle) (e : Thrown)
| CreateMediaStreamSourceThrows (stream context : Handle) (e : Thrown)
| CreateScriptProcessorThrows (stream context : Handle) (e : Thrown)
| GraphConnectThrows (stream context processor : Handle) (e : Thrown)
| SetupCompletes (stream context processor : Handle).

(** [startRecording] up to [await getUserMedia(...)]. *)
Definition startRecording_begin (s : App) : App :=
  let s := setTranscription "" s in
  setErrorMessage "" s.

(** The [catch] block of [startRecording]. *)
Definition startRecording_catch (e : Thrown) (s : App) : App :=
  let s := setErrorMessage (message_of e "Failed to start recording") s in
  let s := setConnectionState error s in
  let s := release_mediaStream s in
  release_audioContext s.

(** [startRecording] from the point where [getUserMedia] settles. *)
Definition startRecording_resume (o : RecordingSetup) (s : App) : App :=
  match o with
  | GetUserMediaRejects e => startRecording_catch e s
  | AudioContextThrows stream e =>
      let s := set_mediaStreamRef (Some stream) s in
      startRecording_catch e s
  | CreateMediaStreamSourceThrows stream context e
  | CreateScriptProcessorThrows stream context e =>
      let s := set_mediaStreamRef (Some stream) s in
      let s := set_audioContextRef (Some context) s in
      startRecording_catch e s
  | GraphConnectThrows stream context processor e =>
      let s := set_mediaStreamRef (Some stream) s in
      let s := set_audioContextRef (Some context) s in
      let s := set_processorRef (Some processor) s in
      startRecording_catch e s
  | SetupCompletes stream context processor =>
      let s := set_mediaStreamRef (Some stream) s in
      let s := set_audioContextRef (Some context) s in
      let s := set_processorRef (Some processor) s in
      setConnectionState recording s
  end.

(** A call of [startRecording] that nothing interleaves with. *)
Definition startRecording (o : RecordingSetup) (s : App) : App :=
  startRecording_resume o (startRecording_begin s).

(** ** Connecting *)

(** [connect] up to its first [await]: the setters, the peer connection and
    its two channels, and the callbacks, which close over the
    [connectionState] the [connect] callback itself closes over, that of
    the latest render.  The constructor and [createDataChannel] are taken
    to succeed; the failure of a later step is the event [ConnectThrows]. *)
Definition connect (pc audioChannel transcriptionChannel : Handle) (s : App) : App :=
  let closure := {| closure_connectionState := connectionState s;
                    session_pc := pc;
                    session_audioChannel := audioChannel;
                    session_transcriptionChannel := transcriptionChannel |} in
  let s := setConnectionState connecting s in
  let s := setErrorMessage "" s in
  let s := set_pcRef (Some pc) s in
  let s := set_audioChannelRef (Some audioChannel) s in
  let s := set_transcriptionChannelRef (Some transcriptionChannel) s in
  add_session closure s.

(** The [catch] block of [connect]: a step of the offer/answer exchange
    threw or rejected. *)
Definition connect_catch (e : Thrown) (s : App) : App :=
  let s := setErrorMessage (message_of e "Failed to connect") s in
  let s := setConnectionState error s in
  cleanup s.

Definition audioChannel_onopen (s : App) : App :=
  setConnectionState connected s.

Definition audioChannel_onerror (s : App) : App :=
  let s := setErrorMessage "Audio channel error occurred" s in
  setConnectionState error s.

Definition audioChannel_onclose (closure : Session) (s : App) : App :=
  if decide (closure_connectionState closure = recording) then stopRecording s else s.

(** A property of the object [JSON.parse(event.data)] returns, as the
    handler uses it.  The message is not validated: the property can be
    missing, a string, or any other JSON value (null, a boolean, a
    number, an array, an object), which is given by its truthiness and
    by the string that [+] converts it to. *)
Inductive Property : Type :=
| Missing
| StringValue (text : string)
| OtherValue (truthy : bool) (toString : string).

(** [ToBoolean] and, for a string concatenation, [ToString]. *)
Definition ToBoolean (v : Property) : bool :=
  match v with
  | Missing => false
  | StringValue text => negb (String.eqb text "")
  | OtherValue truthy _ => truthy
  end.

Definition ToString (v : Property) : string :=
  match v with
  | Missing => "undefined"
  | StringValue text => text
  | OtherValue _ toString => toString
  end.

(** [JSON.parse(event.data)] on the transcription channel: the parse
    throws, or [data.type] is ['transcription'], or it is ['status'], or
    it is anything else (or [data] is not an object). *)
Inductive TranscriptionMessage : Type :=
| NotJson
| TranscriptionData (text : Property)
| StatusData (message : Property)
| OtherData.

Definition transcriptionChannel_onmessage (data : TranscriptionMessage) (s : App) : App :=
  match data with
  | TranscriptionData text =>
      if ToBoolean text
      then setTranscription
             (String.append (String.append (transcription s) (ToString text)) " ") s
      else s
  | _ => s
  end.

Inductive RTCPeerConnectionState : Type :=
| pc_new
| pc_connecting
| pc_connected
| pc_disconnected
| pc_failed
| pc_closed.

Definition pc_onconnectionstatechange (st : RTCPeerConnectionState) (s : App) : App :=
  match st with
  | pc_failed =>
      let s := setErrorMessage "Connection failed" s in
      let s := setConnectionState error s in
      cleanup s
  | pc_disconnected | pc_closed =>
      let s := setConnectionState disconnected s in
      cleanup s
  | _ => s
  end.

Definition disconnect (s : App) : App :=
  let s := cleanup s in
  let s := setConnectionState disconnected s in
  let s := setTranscription "" s in
  setErrorMessage "" s.

Definition getStatusText (s : App) : string :=
  match connectionState s with
  | connected => "Connected - Ready to record"
  | connecting => "Connecting..."
  | recording => "Recording..."
  | error => String.append "Error: " (errorMessage s)
  | disconnected => "Disconnected"
  end.

(** ** Events *)

(** What can happen to the mounted component: a click on one of the four
    buttons, the settling of something a handler awaits, and the events of
    the channels and the peer connection of the [k]-th call of [connect].
    The events are not constrained further (a failure may be delivered at
    any time), so the states [run] reaches include every state the
    component can reach.  The per-chunk audio callback, which calls
    [resampleAudio] and sends the result, touches neither the state nor
    the refs and is not an event. *)
Inductive Event : Type :=
| ClickConnect (pc audioChannel transcriptionChannel : Handle)
| ConnectThrows (e : Thrown)
| ClickStartRecording
| RecordingSetupSettles (o : RecordingSetup)
| ClickStopRecording
| ClickDisconnect
| AudioChannelOpen (k : nat)
| AudioChannelError (k : nat)
| AudioChannelClose (k : nat)
| TranscriptionChannelMessage (k : nat) (data : TranscriptionMessage)
| ConnectionStateChange (k : nat) (st : RTCPeerConnectionState).

(** The [disabled] attribute of the buttons. *)
Definition connect_disabled (s : App) : bool :=
  bool_decide (connectionState s <> disconnected).
Definition startRecording_disabled (s : App) : bool :=
  bool_decide (connectionState s <> connected).
Definition stopRecording_disabled (s : App) : bool :=
  bool_decide (connectionState s <> recording).
Definition disconnect_disabled (s : App) : bool :=
  bool_decide (connectionState s = disconnected).

(** A callback of the [k]-th session runs only if that session exists. *)
Definition with_session (k : nat) (handler : Session -> App -> App) (s : App) : App :=
  match sessions s !! k with
  | Some closure => handler closure s
  | None => s
  end.

Definition step (s : App) (ev : Event) : App :=
  match ev with
  | ClickConnect pc audioChannel transcriptionChannel =>
      if connect_disabled s then s else connect pc audioChannel transcriptionChannel s
  | ConnectThrows e => connect_catch e s
  | ClickStartRecording =>
      if startRecording_disabled s then s else startRecording_begin s
  | RecordingSetupSettles o => startRecording_resume o s
  | ClickStopRecording =>
      if stopRecording_disabled s then s else stopRecording s
  | ClickDisconnect =>
      if disconnect_disabled s then s else disconnect s
  | AudioChannelOpen k => with_session k (fun _ => audioChannel_onopen) s
  | AudioChannelError k => with_session k (fun _ => audioChannel_onerror) s
  | AudioChannelClose k => with_session k audioChannel_onclose s
  | TranscriptionChannelMessage k data =>
      with_session k (fun _ => transcriptionChannel_onmessage data) s
  | ConnectionStateChange k st =>
      with_session k (fun _ => pc_onconnectionstatechange st) s
  end.

Definition run (evs : list Event) (s : App) : App := fold_left step evs s.

(** The messages of the [Error] objects an event delivers are not empty. *)
Definition thrown_message_nonempty (e : Thrown) : Prop :=
  match e with
  | ErrorObject message => message <> ""
  | NotAnError => True
  end.

Definition setup_thrown (o : RecordingSetup) : option Thrown :=
  match o with
  | GetUserMediaRejects e
  | AudioContextThrows _ e
  | CreateMediaStreamSourceThrows _ _ e
  | CreateScriptProcessorThrows _ _ e
  | GraphConnectThrows _ _ _ e => Some e
  | SetupCompletes _ _ _ => None
  end.

Definition event_messages_nonempty (ev : Event) : Prop :=
  match ev with
  | ConnectThrows e => thrown_message_nonempty e
  | RecordingSetupSettles o => from_option thrown_message_nonempty True (setup_thrown o)
  | _ => True
  end.

(** ** Invariants and example traces *)

(** Every callback installed so far closed over [connectionState = disconnected]. *)
Definition closures_disconnected (s : App) : Prop :=
  Forall (fun closure => closure_connectionState closure = disconnected) (sessions s).

(** The message invariant that the handlers do maintain. *)
Definition message_invariant (s : App) : Prop :=
  (connectionState s = error -> errorMessage s <> "") /\
  (connectionState s = connecting -> errorMessage s = "").

(** A session that reaches Recording: connect, the audio channel opens,
    recording starts. *)
Definition recording_trace : list Event :=
  [ClickConnect 1 2 3; AudioChannelOpen 0; ClickStartRecording;
   RecordingSetupSettles (SetupCompletes 4 5 6)].

(** An attempt to record that the browser refuses, and the same followed
    by the end of the transport. *)
Definition denied : list Event :=
  [ClickConnect 1 2 3; AudioChannelOpen 0; ClickStartRecording;
   RecordingSetupSettles (GetUserMediaRejects (ErrorObject "Permission denied"))].

Definition denied_then_dropped : list Event :=
  denied ++ [ConnectionStateChange 0 pc_disconnected].

(** ** Further definitions *)

(** A sample that is neither an infinity nor NaN. *)
Definition finite (x : Num) : Prop := exists q : Q, x = Fin q.



(** The six refs are null. *)
Definition holds_nothing (s : App) : Prop :=
  processorRef s = None /\ mediaStreamRef s = None /\ audioContextRef s = None /\
  pcRef s = None /\ audioChannelRef s = None /\ transcriptionChannelRef s = None.

(** The refs are set in groups: the two channels with the peer connection,
    and an audio context only together with a media stream. *)
Definition refs_grouped (s : App) : Prop :=
  (audioChannelRef s = None <-> pcRef s = None) /\
  (transcriptionChannelRef s = None <-> pcRef s = None) /\
  (mediaStreamRef s = None -> audioContextRef s = None).

(** What each state holds: nothing in Disconnected, the peer connection in
    Connecting, the recording objects in Recording. *)
Definition held_by_state (s : App) : Prop :=
  match connectionState s with
  | disconnected => holds_nothing s
  | connecting => pcRef s <> None
  | recording =>
      processorRef s <> None /\ mediaStreamRef s <> None /\ audioContextRef s <> None
  | _ => True
  end.

Definition resource_invariant (s : App) : Prop :=
  refs_grouped s /\ held_by_state s.

(** The class of the status box. *)
Definition getStatusColor (s : App) : string :=
  match connectionState s with
  | connected => "bg-green-100 text-green-800"
  | connecting => "bg-yellow-100 text-yellow-800"
  | recording => "bg-blue-100 text-blue-800"
  | error => "bg-red-100 text-red-800"
  | disconnected => "bg-gray-100 text-gray-800"
  end.

(** The release calls [stopRecording] makes in a state, in their order. *)
Definition recording_releases (s : App) : list Effect :=
  from_option (fun h => [ProcessorDisconnect h]) [] (processorRef s) ++
  from_option (fun h => [TracksStop h]) [] (mediaStreamRef s) ++
  from_option (fun h => [AudioContextClose h]) [] (audioContextRef s).

(** The events that can take the component into each state. *)
Definition enters (st : ConnectionState) (ev : Event) : Prop :=
  match st with
  | connecting => exists pc audioChannel transcriptionChannel,
      ev = ClickConnect pc audioChannel transcriptionChannel
  | connected => (exists k, ev = AudioChannelOpen k) \/ ev = ClickStopRecording
  | recording => exists stream context processor,
      ev = RecordingSetupSettles (SetupCompletes stream context processor)
  | disconnected =>
      ev = ClickDisconnect \/
      exists k, ev = ConnectionStateChange k pc_disconnected \/
                ev = ConnectionStateChange k pc_closed
  | error =>
      (exists e, ev = ConnectThrows e) \/
      (exists o e, ev = RecordingSetupSettles o /\ setup_thrown o = Some e) \/
      (exists k, ev = AudioChannelError k) \/
      (exists k, ev = ConnectionStateChange k pc_failed)
  end.

(** The state a button requires. *)
Definition required_state (ev : Event) : option ConnectionState :=
  match ev with
  | ClickConnect _ _ _ => Some disconnected
  | ClickStartRecording => Some connected
  | ClickStopRecording => Some recording
  | _ => None
  end.

Inductive RTCDataChannelState : Type :=
| dc_connecting
| dc_open
| dc_closing
| dc_closed.

(** What one run of the [onaudioprocess] callback does with its chunk. *)
Inductive ChunkOutcome : Type :=
| FrameSent (audioChannel : Handle) (int16Data : Int16Array) (byteLength : nat)
| SendFailed
| NothingSent
| Uncaught.

(** [processor.onaudioprocess]: resample the chunk to 16000 Hz, and send it
    when [audioChannelRef.current] is set and open; a [send] that throws is
    caught and logged.  [readyState] gives the state of each channel and
    [send_throws] tells whether [send] throws. *)
Definition onaudioprocess (readyState : Handle -> RTCDataChannelState) (send_throws : bool)
    (sourceSampleRate : Num) (inputData : Float32Array) (s : App) : ChunkOutcome :=
  match resampleAudio inputData sourceSampleRate (ofZ 16000) with
  | RangeError => Uncaught
  | Returned int16Data =>
      match audioChannelRef s with
      | Some audioChannel =>
          match readyState audioChannel with
          | dc_open =>
              if send_throws then SendFailed
              else FrameSent audioChannel int16Data (2 * length int16Data)
          | _ => NothingSent
          end
      | None => NothingSent
      end
  end.

(** Example traces and messages for the further properties. *)
Definition connected_trace : list Event :=
  [ClickConnect 1 2 3; AudioChannelOpen 0].


(** * Properties *)

Section ForLoop.
Context {A : Type}.

Lemma for_loop_fill (f : nat -> A) (count : nat) :
  forall (i : nat) (a : list A),
    (i + count)%nat = length a ->
    for_loop (fun j a' => <[j := f j]> a') i count a = take i a ++ (f <$> seq i count).
Proof.
  induction count as [|count IH]; intros i a Hlen; simpl.
  - rewrite take_ge by lia. by rewrite app_nil_r.
  - rewrite IH by (rewrite length_insert; lia).
    rewrite (take_S_r _ _ (f i)) by (apply list_lookup_insert_eq; lia).
    rewrite take_insert_ge by lia.
    by rewrite <- app_assoc.
Qed.

Lemma for_loop_fill_all (f : nat -> A) (a : list A) :
  for_loop (fun j a' => <[j := f j]> a') 0 (length a) a = f <$> seq 0 (length a).
Proof. by rewrite for_loop_fill. Qed.
End ForLoop.

Lemma convert_loop_fmap (data : Float32Array) :
  convert_loop data = quantize <$> data.
Proof.
  unfold convert_loop, new_Int16Array.
  rewrite (for_loop_fill (fun i => quantize (ToNumber (data !! i))))
    by (rewrite length_replicate; lia).
  simpl. apply list_eq. intros i.
  rewrite !list_lookup_fmap.
  destruct (decide (i < length data)%nat) as [Hi|Hi].
  - rewrite lookup_seq_lt by done. simpl.
    destruct (lookup_lt_is_Some_2 data i Hi) as [x Hx].
    rewrite Hx. done.
  - rewrite lookup_seq_ge by lia. rewrite lookup_ge_None_2 by lia. done.
Qed.

Lemma interpolation_loop_fmap (inputData : Float32Array) (ratio : Num) (outputData : Float32Array) :
  interpolation_loop inputData ratio outputData
  = interpolate inputData ratio <$> seq 0 (length outputData).
Proof. unfold interpolation_loop. apply (for_loop_fill_all (interpolate inputData ratio)). Qed.

(** ** Arithmetic of the index computation *)

Lemma Qtruncate_inject_Z (z : Z) : Qtruncate (inject_Z z) = z.
Proof.
  unfold Qtruncate. destruct (Qle_bool 0 (inject_Z z)).
  - apply Qfloor_Z.
  - apply Qceiling_Z.
Qed.

Lemma inject_Z_add (a b : Z) : (inject_Z a + inject_Z b)%Q = inject_Z (a + b).
Proof. unfold Qplus, inject_Z. simpl. f_equal. lia. Qed.

Lemma inject_Z_sub (a b : Z) : (inject_Z a + - inject_Z b)%Q = inject_Z (a - b).
Proof. unfold Qplus, Qopp, inject_Z. simpl. f_equal. lia. Qed.

Lemma Qeq_bool_pos_0 (q : Q) : (0 < q)%Q -> Qeq_bool q 0 = false.
Proof.
  intros Hq. destruct (Qeq_bool q 0) eqn:E; [|done].
  apply Qeq_bool_eq in E. rewrite E in Hq. by apply Qlt_irrefl in Hq.
Qed.

Lemma div_Fin_pos (a b : Q) : (0 < b)%Q -> div (Fin a) (Fin b) = Fin (a / b).
Proof. intros Hb. simpl. by rewrite Qeq_bool_pos_0. Qed.

Lemma Qdiv_pos (a b : Q) : (0 < a)%Q -> (0 < b)%Q -> (0 < a / b)%Q.
Proof. intros Ha Hb. apply Qlt_shift_div_l; [done|]. by rewrite Qmult_0_l. Qed.

Lemma outputCount_nonneg (n : nat) (r : Q) : (0 < r)%Q -> 0 <= outputCount n r.
Proof.
  intros Hr. unfold outputCount.
  rewrite <- (Qfloor_Z 0). apply Qfloor_resp_le.
  assert (0 <= inject_Z (Z.of_nat n) / r)%Q.
  { apply Qle_shift_div_l; [done|]. rewrite Qmult_0_l.
    rewrite <- (Zle_Qle 0). lia. }
  change (inject_Z 0) with 0%Q. lra.
Qed.

Lemma outputLength_pos (inputData : Float32Array) (r : Q) :
  (0 < r)%Q -> outputLength inputData (Fin r) = ofZ (outputCount (length inputData) r).
Proof. intros Hr. unfold outputLength, ofNat, ofZ. by rewrite div_Fin_pos. Qed.

Lemma new_Float32Array_ofZ (k : Z) :
  0 <= k -> new_Float32Array (ofZ k) = Some (replicate (Z.to_nat k) (Fin 0)).
Proof.
  intros Hk. unfold new_Float32Array, ofZ. rewrite Qtruncate_inject_Z.
  destruct (Z.ltb_spec k 0); [lia|done].
Qed.

(** The source position of an output index lies strictly below the length
    of the block. *)
Lemma srcIndex_below (n : nat) (r : Q) (i : nat) :
  (0 < r)%Q -> Z.of_nat i < outputCount n r ->
  0 <= Qfloor (inject_Z (Z.of_nat i) * r) < Z.of_nat n.
Proof.
  intros Hr Hi. unfold outputCount in Hi.
  set (x := (inject_Z (Z.of_nat i) * r)%Q).
  assert (Hi0 : (0 <= inject_Z (Z.of_nat i))%Q) by (rewrite <- (Zle_Qle 0); lia).
  split.
  - rewrite <- (Qfloor_Z 0). apply Qfloor_resp_le. subst x.
    change (inject_Z 0) with 0%Q. apply Qmult_le_0_compat; [done|]. by apply Qlt_le_weak.
  - set (y := (inject_Z (Z.of_nat n) / r)%Q) in *.
    assert (Hk : (inject_Z (Z.of_nat i) + 1 <= y + (1 # 2))%Q).
    { eapply Qle_trans; [|apply Qfloor_le].
      change 1%Q with (inject_Z 1). rewrite inject_Z_add.
      rewrite <- Zle_Qle. lia. }
    assert (Hy : (y * r == inject_Z (Z.of_nat n))%Q).
    { subst y. field. intros E. rewrite E in Hr. by apply Qlt_irrefl in Hr. }
    assert (Hm : ((inject_Z (Z.of_nat i) + (1 # 2)) * r <= y * r)%Q).
    { apply Qmult_le_compat_r; [lra|by apply Qlt_le_weak]. }
    rewrite Hy in Hm.
    assert (Hx : (x < inject_Z (Z.of_nat n))%Q) by (subst x; lra).
    rewrite Zlt_Qlt. eapply Qle_lt_trans; [apply Qfloor_le|done].
Qed.

(** ** Quantization *)

Lemma ToInt16_in_range (q : Q) :
  -32768 <= Qtruncate q <= 32767 -> ToInt16 (Fin q) = Qtruncate q.
Proof.
  intros Hq. unfold ToInt16.
  destruct (Z.leb_spec 32768 (Qtruncate q mod 65536)) as [Hm|Hm];
    revert Hm; generalize (Qtruncate q) Hq; clear; intros z Hz Hm.
  - destruct (Z.lt_ge_cases z 0).
    + rewrite <- (Z_mod_plus_full z 1 65536), Z.mod_small by lia. lia.
    + rewrite Z.mod_small in Hm by lia. lia.
  - destruct (Z.lt_ge_cases z 0).
    + rewrite <- (Z_mod_plus_full z 1 65536), Z.mod_small in Hm by lia. lia.
    + rewrite Z.mod_small by lia. lia.
Qed.

Lemma clamp_range (q : Q) : (-1 <= clamp q <= 1)%Q.
Proof.
  unfold clamp.
  destruct (Qle_bool q (-1)) eqn:E1; [lra|].
  destruct (Qle_bool 1 q) eqn:E2; [lra|].
  assert (~ (q <= -1)%Q) by (rewrite <- Qle_bool_iff; congruence).
  assert (~ (1 <= q)%Q) by (rewrite <- Qle_bool_iff; congruence).
  lra.
Qed.

Lemma Math_clamp_Fin (q : Q) :
  Math_max (ofZ (-1)) (Math_min (ofZ 1) (Fin q)) = Fin (clamp q).
Proof.
  unfold clamp, Math_min, Math_max, ofZ, lt.
  change (inject_Z 1) with 1%Q. change (inject_Z (-1)) with (-1)%Q.
  destruct (Qle_bool 1 q) eqn:E2; simpl.
  - destruct (Qle_bool q (-1)) eqn:E1; [|done].
    apply Qle_bool_iff in E1, E2. lra.
  - by destruct (Qle_bool q (-1)).
Qed.

Lemma scaled_truncate_range (c : Q) :
  (-1 <= c <= 1)%Q ->
  -32768 <= Qtruncate (if Qlt_le_dec c 0 then c * 32768 else c * 32767) <= 32767.
Proof.
  intros Hc. unfold Qtruncate.
  destruct (Qlt_le_dec c 0) as [Hneg|Hpos].
  - destruct (Qle_bool 0 (c * 32768)) eqn:E.
    { apply Qle_bool_iff in E. lra. }
    split.
    + rewrite <- (Qceiling_Z (-32768)). apply Qceiling_resp_le.
      change (inject_Z (-32768)) with (-32768)%Q. lra.
    + transitivity 0; [|lia]. rewrite <- (Qceiling_Z 0). apply Qceiling_resp_le.
      change (inject_Z 0) with 0%Q. lra.
  - destruct (Qle_bool 0 (c * 32767)) eqn:E.
    2:{ assert (~ (0 <= c * 32767)%Q) by (rewrite <- Qle_bool_iff; congruence). lra. }
    split.
    + transitivity 0; [lia|]. rewrite <- (Qfloor_Z 0). apply Qfloor_resp_le.
      change (inject_Z 0) with 0%Q. lra.
    + transitivity (Qfloor (inject_Z 32767)); [|by rewrite Qfloor_Z].
      apply Qfloor_resp_le. change (inject_Z 32767) with 32767%Q. lra.
Qed.

Lemma quantize_Fin (q : Q) : quantize (Fin q) = quantize_spec q.
Proof.
  unfold quantize, quantize_spec. rewrite Math_clamp_Fin.
  pose proof (scaled_truncate_range (clamp q) (clamp_range q)) as Hr.
  cbv zeta. revert Hr. generalize (clamp q). intros c Hr.
  unfold lt, ofZ, mul. change (inject_Z 0) with 0%Q.
  change (inject_Z 32768) with 32768%Q. change (inject_Z 32767) with 32767%Q.
  destruct (Qlt_le_dec c 0) as [Hneg|Hpos].
  - destruct (Qle_bool 0 c) eqn:E.
    { apply Qle_bool_iff in E. lra. }
    simpl negb. cbv iota. by apply ToInt16_in_range.
  - destruct (Qle_bool 0 c) eqn:E.
    2:{ assert (~ (0 <= c)%Q) by (rewrite <- Qle_bool_iff; congruence). lra. }
    simpl negb. cbv iota. by apply ToInt16_in_range.
Qed.

Lemma resampleAudio_unfold (inputData : Float32Array) (s t : Num) :
  resampleAudio inputData s t =
    if strict_eq s t then Returned (quantize <$> inputData)
    else match new_Float32Array (outputLength inputData (div s t)) with
         | None => RangeError
         | Some outputData =>
             Returned (quantize <$> (interpolate inputData (div s t) <$> seq 0 (length outputData)))
         end.
Proof.
  unfold resampleAudio. destruct (strict_eq s t).
  - by rewrite convert_loop_fmap.
  - destruct (new_Float32Array _); [|done].
    by rewrite convert_loop_fmap, interpolation_loop_fmap.
Qed.

(** ** Array reads of the interpolation loop *)

Lemma lt_ofZ (a b : Z) : lt (ofZ a) (ofZ b) = (a <? b).
Proof.
  unfold lt, ofZ.
  destruct (Z.ltb_spec a b) as [H|H]; destruct (Qle_bool (inject_Z b) (inject_Z a)) eqn:E;
    try done.
  - apply Qle_bool_iff in E. rewrite <- Zle_Qle in E. lia.
  - exfalso. rewrite Zle_Qle, <- Qle_bool_iff in H. congruence.
Qed.

Lemma Math_min_ofZ (a b : Z) : Math_min (ofZ a) (ofZ b) = ofZ (Z.min a b).
Proof.
  change (Math_min (ofZ a) (ofZ b)) with (if lt (ofZ b) (ofZ a) then ofZ b else ofZ a).
  rewrite lt_ofZ. destruct (Z.ltb_spec b a); f_equal; lia.
Qed.

Lemma add_ofZ (a b : Z) : add (ofZ a) (ofZ b) = ofZ (a + b).
Proof. unfold add, ofZ. by rewrite inject_Z_add. Qed.

Lemma sub_ofZ (a b : Z) : sub (ofZ a) (ofZ b) = ofZ (a - b).
Proof. unfold sub, add, neg, ofZ. by rewrite inject_Z_sub. Qed.

Lemma get_ofZ (a : Float32Array) (z : Z) :
  get a (ofZ z) = if 0 <=? z then a !! Z.to_nat z else None.
Proof.
  unfold get, ofZ. rewrite Qfloor_Z.
  by rewrite (proj2 (Qeq_bool_iff _ _) (Qeq_refl _)).
Qed.

Lemma srcIndexFloor_Fin (r : Q) (i : nat) :
  srcIndexFloor (Fin r) i = ofZ (Qfloor (inject_Z (Z.of_nat i) * r)).
Proof. reflexivity. Qed.

Lemma srcIndexCeil_Fin (inputData : Float32Array) (r : Q) (i : nat) :
  srcIndexCeil inputData (Fin r) i
  = ofZ (Z.min (Qfloor (inject_Z (Z.of_nat i) * r) + 1) (Z.of_nat (length inputData) - 1)).
Proof.
  unfold srcIndexCeil. rewrite srcIndexFloor_Fin.
  unfold ofNat. by rewrite add_ofZ, sub_ofZ, Math_min_ofZ.
Qed.

(** Every index the loop reads at is an integer of [0, length - 1]. *)
Lemma reads_in_bounds (inputData : Float32Array) (r : Q) (i : nat) :
  (0 < r)%Q -> Z.of_nat i < outputCount (length inputData) r ->
  let f := Qfloor (inject_Z (Z.of_nat i) * r) in
  let c := Z.min (f + 1) (Z.of_nat (length inputData) - 1) in
  (0 <= f <= Z.of_nat (length inputData) - 1) /\
  (0 <= c <= Z.of_nat (length inputData) - 1) /\
  (exists a, get inputData (srcIndexFloor (Fin r) i) = Some a) /\
  (exists b, get inputData (srcIndexCeil inputData (Fin r) i) = Some b).
Proof.
  intros Hr Hi f c. pose proof (srcIndex_below _ _ _ Hr Hi) as Hf. fold f in Hf.
  assert (Hc : 0 <= c <= Z.of_nat (length inputData) - 1) by (subst c; lia).
  split; [lia|]. split; [done|].
  rewrite srcIndexCeil_Fin, srcIndexFloor_Fin, !get_ofZ. fold f c.
  destruct (Z.leb_spec 0 f); [|lia]. destruct (Z.leb_spec 0 c); [|lia].
  split; apply lookup_lt_is_Some_2; lia.
Qed.

(** ** The resampler: claims *)

(** C7. When the two rates are equal, [resampleAudio] does not interpolate:
    the output has the length of the input and its sample at each index is
    the clamp-and-quantize of the input sample at that index. *)
Theorem resampleAudio_same_rate (inputData : Float32Array) (sourceRate targetRate : Num) :
  strict_eq sourceRate targetRate = true ->
  exists int16Data : Int16Array,
    resampleAudio inputData sourceRate targetRate = Returned int16Data /\
    int16Data = quantize <$> inputData /\
    length int16Data = length inputData /\
    (forall (i : nat) (x : Num),
       inputData !! i = Some x -> int16Data !! i = Some (quantize x)) /\
    (forall (i : nat) (q : Q),
       inputData !! i = Some (Fin q) -> int16Data !! i = Some (quantize_spec q)).
Proof.
  intros Heq. exists (quantize <$> inputData).
  rewrite resampleAudio_unfold, Heq. split; [done|]. split; [done|].
  split; [apply length_fmap|].
  split.
  - intros i x Hx. by rewrite list_lookup_fmap, Hx.
  - intros i q Hq. by rewrite list_lookup_fmap, Hq, <- quantize_Fin.
Qed.

Lemma resampleAudio_same_rate_witness :
  strict_eq (ofZ 16000) (ofZ 16000) = true /\
  exists int16Data : Int16Array,
    resampleAudio block6 (ofZ 16000) (ofZ 16000) = Returned int16Data /\
    int16Data = quantize <$> block6 /\
    length int16Data = length block6 /\
    (forall (i : nat) (x : Num),
       block6 !! i = Some x -> int16Data !! i = Some (quantize x)) /\
    (forall (i : nat) (q : Q),
       block6 !! i = Some (Fin q) -> int16Data !! i = Some (quantize_spec q)).
Proof.
  split; [reflexivity|].
  apply (resampleAudio_same_rate block6 (ofZ 16000) (ofZ 16000)). reflexivity.
Defined.


(** ** The interpolation path in double precision *)

(** The lemmas of this part are about [Double]: they bound what the
    rounding of a product and of a quotient can add, and show that the
    integers the loop works with are exact. *)
Section DoubleArithmetic.
Import Double.

(** *** Binary digits and shifts *)

Lemma digits2_pos_size (p : positive) : digits2_pos p = Pos.size p.
Proof. induction p; simpl; congruence. Qed.

Lemma Zdigits2_pos (p : positive) : Zdigits2 (Z.pos p) = Z.pos (Pos.size p).
Proof. simpl. by rewrite digits2_pos_size. Qed.

Lemma Zdigits2_bounds (m : Z) :
  0 < m -> 2 ^ (Zdigits2 m - 1) <= m < 2 ^ Zdigits2 m.
Proof.
  intros Hm. destruct m as [|p|p]; try lia.
  rewrite Zdigits2_pos. split.
  - pose proof (Pos.size_le p) as H.
    apply Pos2Z.pos_le_pos in H. rewrite Pos2Z.inj_pow in H.
    replace (Z.pos (Pos.size p)) with (Z.succ (Z.pos (Pos.size p) - 1)) in H by lia.
    rewrite Z.pow_succ_r in H by lia. lia.
  - pose proof (Pos.size_gt p) as H.
    apply Pos2Z.pos_lt_pos in H. by rewrite Pos2Z.inj_pow in H.
Qed.

Lemma Zdigits2_nonneg (m : Z) : 0 <= Zdigits2 m.
Proof. destruct m; simpl; lia. Qed.

Lemma Zdigits2_unique (m d : Z) :
  2 ^ (d - 1) <= m < 2 ^ d -> 0 < m -> Zdigits2 m = d.
Proof.
  intros [Hl Hu] Hm.
  destruct (Zdigits2_bounds m Hm) as [Hl' Hu'].
  pose proof (Zdigits2_nonneg m) as Hn.
  assert (Hd : 0 < d).
  { destruct (Z.lt_trichotomy d 0) as [H|[H|H]]; [|subst; simpl in *; lia|lia].
    rewrite Z.pow_neg_r in Hu by lia. lia. }
  destruct (Z.lt_trichotomy (Zdigits2 m) d) as [H|[H|H]]; [|done|].
  - assert (2 ^ Zdigits2 m <= 2 ^ (d - 1)) by (apply Z.pow_le_mono_r; lia). lia.
  - assert (2 ^ d <= 2 ^ (Zdigits2 m - 1)) by (apply Z.pow_le_mono_r; lia). lia.
Qed.

Lemma Zdigits2_shift (m j : Z) :
  0 < m -> 0 <= j -> Zdigits2 (m * 2 ^ j) = Zdigits2 m + j.
Proof.
  intros Hm Hj. destruct (Zdigits2_bounds m Hm) as [Hl Hu].
  pose proof (Zdigits2_nonneg m) as Hn.
  assert (0 < Zdigits2 m).
  { destruct (Z.eq_dec (Zdigits2 m) 0) as [E|]; [|lia]. rewrite E in Hu. simpl in Hu. lia. }
  assert (0 < 2 ^ j) by (apply Z.pow_pos_nonneg; lia).
  apply Zdigits2_unique; [|nia].
  replace (Zdigits2 m + j - 1) with ((Zdigits2 m - 1) + j) by lia.
  rewrite !Z.pow_add_r by lia. nia.
Qed.

Lemma Zdigits2_lower (m d : Z) : 0 <= d -> 2 ^ d <= m -> d + 1 <= Zdigits2 m.
Proof.
  intros Hd Hm.
  assert (0 < m) by (pose proof (Z.pow_pos_nonneg 2 d); lia).
  destruct (Zdigits2_bounds m) as [_ Hu]; [done|].
  destruct (Z_lt_le_dec d (Zdigits2 m)) as [|Hle]; [lia|].
  assert (2 ^ Zdigits2 m <= 2 ^ d) by (apply Z.pow_le_mono_r; lia). lia.
Qed.

Lemma Zdigits2_upper (m d : Z) : 0 <= d -> 0 <= m < 2 ^ d -> Zdigits2 m <= d.
Proof.
  intros Hd [Hm Hu].
  destruct (Z.eq_dec m 0) as [->|]; [simpl; lia|].
  destruct (Zdigits2_bounds m) as [Hl _]; [lia|].
  destruct (Z_le_gt_dec (Zdigits2 m) d) as [|Hgt]; [lia|].
  assert (2 ^ d <= 2 ^ (Zdigits2 m - 1)) by (apply Z.pow_le_mono_r; lia). lia.
Qed.

Lemma iter_pos_iter {A : Type} (f : A -> A) (p : positive) (x : A) :
  SpecFloat.iter_pos f p x = Pos.iter f x p.
Proof.
  revert x. induction p as [p IH|p IH|]; intros x; simpl.
  - by rewrite !IH, <- !Pos.iter_swap.
  - by rewrite !IH.
  - done.
Qed.

Lemma shr_1_m (mrs : shr_record) :
  0 <= shr_m mrs -> shr_m (shr_1 mrs) = shr_m mrs / 2.
Proof.
  destruct mrs as [m r s]. simpl. intros Hm.
  destruct m as [|[p|p|]|]; try lia; try done; cbn [shr_m].
  - apply Z.div_unique with 1; lia.
  - apply Z.div_unique with 0; lia.
Qed.

Lemma shr_iter_m (p : positive) (mrs : shr_record) :
  0 <= shr_m mrs -> shr_m (Pos.iter shr_1 mrs p) = shr_m mrs / 2 ^ Z.pos p.
Proof.
  intros Hm. induction p as [|p IH] using Pos.peano_ind.
  - simpl. by rewrite shr_1_m.
  - rewrite Pos.iter_succ, shr_1_m, IH.
    + rewrite Z.div_div by (try apply Z.pow_pos_nonneg; lia).
      by rewrite Pos2Z.inj_succ, Z.pow_succ_r, Z.mul_comm by lia.
    + rewrite IH. apply Z.div_pos; [done|]. apply Z.pow_pos_nonneg; lia.
Qed.

Lemma shr_iter_exact (p : positive) (m : Z) :
  0 <= m ->
  Pos.iter shr_1 (Build_shr_record (m * 2 ^ Z.pos p) false false) p
  = Build_shr_record m false false.
Proof.
  revert m. induction p as [|p IH] using Pos.peano_ind; intros m Hm.
  - simpl. destruct m as [|q|q]; simpl; try lia; try done.
    by rewrite Pos.mul_comm.
  - rewrite Pos.iter_succ.
    replace (m * 2 ^ Z.pos (Pos.succ p)) with ((m * 2) * 2 ^ Z.pos p).
    + rewrite IH by lia. destruct m as [|q|q]; simpl; try lia; try done.
      by rewrite Pos.mul_comm.
    + rewrite Pos2Z.inj_succ, Z.pow_succ_r by lia. ring.
Qed.

Lemma shl_align_fst (m : positive) (e e' : Z) :
  e' <= e -> Z.pos (fst (shl_align m e e')) = Z.pos m * 2 ^ (e - e').
Proof.
  intros He. unfold shl_align.
  destruct (e' - e) as [|d|d] eqn:Hd; simpl.
  - replace (e - e') with 0 by lia. simpl. lia.
  - lia.
  - replace (e - e') with (Z.pos d) by lia.
    clear. revert m. induction d as [|d IH] using Pos.peano_ind; intros m.
    + simpl. lia.
    + rewrite Pos.iter_succ, Pos2Z.inj_xO, IH, Pos2Z.inj_succ, Z.pow_succ_r by lia. ring.
Qed.

Lemma shl_align_snd (m : positive) (e e' : Z) :
  e' <= e -> snd (shl_align m e e') = e'.
Proof.
  intros He. unfold shl_align.
  destruct (e' - e) as [|d|d] eqn:Hd; simpl; lia.
Qed.

Lemma shl_align_id (m : positive) (e e' : Z) :
  e <= e' -> shl_align m e e' = (m, e).
Proof.
  intros He. unfold shl_align.
  destruct (e' - e) as [|d|d] eqn:Hd; simpl; try done. lia.
Qed.

(** *** Rounding to a double *)

Lemma fexp_eq (e : Z) : fexp 53 1024 e = Z.max (e - 53) (-1074).
Proof. reflexivity. Qed.

Lemma shr_record_of_loc_m (m : Z) (l : location) :
  shr_m (shr_record_of_loc m l) = m.
Proof. by destruct l as [|[]]. Qed.

Lemma shr_fexp_spec (m e : Z) (l : location) :
  0 <= m ->
  shr_m (fst (shr_fexp 53 1024 m e l))
    = m / 2 ^ Z.max 0 (fexp 53 1024 (Zdigits2 m + e) - e) /\
  snd (shr_fexp 53 1024 m e l)
    = e + Z.max 0 (fexp 53 1024 (Zdigits2 m + e) - e).
Proof.
  intros Hm. unfold shr_fexp, shr.
  destruct (fexp 53 1024 (Zdigits2 m + e) - e) as [|p|p]; cbn [fst snd];
    [change (Z.max 0 0) with 0|change (Z.max 0 (Z.pos p)) with (Z.pos p)
    |change (Z.max 0 (Z.neg p)) with 0].
  - rewrite shr_record_of_loc_m, Z.div_1_r. lia.
  - rewrite iter_pos_iter, shr_iter_m, shr_record_of_loc_m; [done|].
    by rewrite shr_record_of_loc_m.
  - rewrite shr_record_of_loc_m, Z.div_1_r. lia.
Qed.

Lemma shr_fexp_exact (m e : Z) :
  0 <= m ->
  m mod 2 ^ Z.max 0 (fexp 53 1024 (Zdigits2 m + e) - e) = 0 ->
  fst (shr_fexp 53 1024 m e loc_Exact)
  = Build_shr_record (m / 2 ^ Z.max 0 (fexp 53 1024 (Zdigits2 m + e) - e)) false false.
Proof.
  intros Hm. unfold shr_fexp, shr.
  destruct (fexp 53 1024 (Zdigits2 m + e) - e) as [|p|p]; cbn [fst snd];
    [change (Z.max 0 0) with 0|change (Z.max 0 (Z.pos p)) with (Z.pos p)
    |change (Z.max 0 (Z.neg p)) with 0]; intros Hmod.
  - by rewrite Z.div_1_r.
  - rewrite iter_pos_iter. cbn [shr_record_of_loc].
    assert (Hp : 0 < 2 ^ Z.pos p) by (apply Z.pow_pos_nonneg; lia).
    pose proof (Z.div_mod m (2 ^ Z.pos p)) as Hdm.
    rewrite Hmod in Hdm.
    replace m with (m / 2 ^ Z.pos p * 2 ^ Z.pos p) at 1 by lia.
    apply shr_iter_exact. apply Z.div_pos; lia.
  - by rewrite Z.div_1_r.
Qed.

Lemma round_nearest_even_range (m : Z) (l : location) :
  m <= round_nearest_even m l <= m + 1.
Proof. destruct l as [|[]]; simpl; try destruct (Z.even m); lia. Qed.

Lemma binary_round_aux_spec (mx ex : Z) (lx : location) :
  0 <= mx ->
  exists m1 : Z,
    mx / 2 ^ Z.max 0 (fexp 53 1024 (Zdigits2 mx + ex) - ex) <= m1
      <= mx / 2 ^ Z.max 0 (fexp 53 1024 (Zdigits2 mx + ex) - ex) + 1 /\
    (lx = loc_Exact ->
     mx mod 2 ^ Z.max 0 (fexp 53 1024 (Zdigits2 mx + ex) - ex) = 0 ->
     m1 = mx / 2 ^ Z.max 0 (fexp 53 1024 (Zdigits2 mx + ex) - ex)) /\
    binary_round_aux 53 1024 false mx ex lx
    = round_result
        (m1 / 2 ^ Z.max 0 (fexp 53 1024
                  (Zdigits2 m1 + (ex + Z.max 0 (fexp 53 1024 (Zdigits2 mx + ex) - ex)))
                  - (ex + Z.max 0 (fexp 53 1024 (Zdigits2 mx + ex) - ex))))
        (ex + Z.max 0 (fexp 53 1024 (Zdigits2 mx + ex) - ex)
         + Z.max 0 (fexp 53 1024
                  (Zdigits2 m1 + (ex + Z.max 0 (fexp 53 1024 (Zdigits2 mx + ex) - ex)))
                  - (ex + Z.max 0 (fexp 53 1024 (Zdigits2 mx + ex) - ex)))).
Proof.
  intros Hmx.
  set (k1 := Z.max 0 (fexp 53 1024 (Zdigits2 mx + ex) - ex)).
  assert (Hk1 : 0 < 2 ^ k1) by (apply Z.pow_pos_nonneg; lia).
  destruct (shr_fexp_spec mx ex lx Hmx) as [Hm' He'].
  fold k1 in Hm', He'.
  unfold binary_round_aux.
  destruct (shr_fexp 53 1024 mx ex lx) as [mrs' e'] eqn:H1.
  cbn [fst snd] in Hm', He'.
  set (m1 := round_nearest_even (shr_m mrs') (loc_of_shr_record mrs')).
  exists m1.
  pose proof (round_nearest_even_range (shr_m mrs') (loc_of_shr_record mrs')) as Hr.
  fold m1 in Hr. rewrite Hm' in Hr.
  assert (Hm1 : 0 <= m1).
  { assert (0 <= mx / 2 ^ k1) by (apply Z.div_pos; lia). lia. }
  split; [done|]. split.
  - intros -> Hmod.
    pose proof (shr_fexp_exact mx ex Hmx) as Hex. fold k1 in Hex.
    rewrite H1 in Hex. cbn [fst] in Hex. specialize (Hex Hmod).
    subst m1. by rewrite Hex.
  - destruct (shr_fexp_spec m1 e' loc_Exact Hm1) as [Hm'' He''].
    destruct (shr_fexp 53 1024 m1 e' loc_Exact) as [mrs'' e''] eqn:H2.
    cbn [fst snd] in Hm'', He''.
    rewrite Hm'', He'', He'. reflexivity.
Qed.

(** *** Values *)

Lemma pow2_pos (e : Z) : (0 < pow2 e)%Q.
Proof. by apply Qpower_0_lt. Qed.

Lemma pow2_add (a b : Z) : (pow2 (a + b) == pow2 a * pow2 b)%Q.
Proof. apply Qpower_plus. discriminate. Qed.

Lemma pow2_Z (k : Z) : 0 <= k -> (pow2 k == inject_Z (2 ^ k))%Q.
Proof. intros Hk. by rewrite Zpower_Qpower. Qed.

Lemma pow2_le (a b : Z) : a <= b -> (pow2 a <= pow2 b)%Q.
Proof. intros H. by apply Qpower_le_compat_l. Qed.

Lemma pow2_double (e : Z) : (pow2 e + pow2 e == pow2 (e + 1))%Q.
Proof. rewrite pow2_add. change (pow2 1) with 2%Q. ring. Qed.

Lemma val_nonneg (m e : Z) : 0 <= m -> (0 <= val m e)%Q.
Proof.
  intros Hm. apply Qmult_le_0_compat.
  - change 0%Q with (inject_Z 0). by rewrite <- Zle_Qle.
  - apply Qlt_le_weak, pow2_pos.
Qed.

Lemma val_le (m1 m2 e : Z) : m1 <= m2 -> (val m1 e <= val m2 e)%Q.
Proof.
  intros H. apply Qmult_le_compat_r.
  - by rewrite <- Zle_Qle.
  - apply Qlt_le_weak, pow2_pos.
Qed.

Lemma val_lt (m1 m2 e : Z) : m1 < m2 -> (val m1 e < val m2 e)%Q.
Proof.
  intros H. apply Qmult_lt_compat_r.
  - apply pow2_pos.
  - by rewrite <- Zlt_Qlt.
Qed.

Lemma val_shift (m e k : Z) : 0 <= k -> (val (m * 2 ^ k) e == val m (e + k))%Q.
Proof.
  intros Hk. unfold val. rewrite pow2_add, inject_Z_mult, (pow2_Z k Hk). ring.
Qed.

Lemma val_one (e : Z) : (val 1 e == pow2 e)%Q.
Proof. unfold val. ring. Qed.

Lemma val_plus (m1 m2 e : Z) : (val (m1 + m2) e == val m1 e + val m2 e)%Q.
Proof. unfold val. rewrite inject_Z_plus. ring. Qed.

Lemma val_div (m e k : Z) :
  0 <= k -> 0 <= m -> (val (m / 2 ^ k) (e + k) <= val m e)%Q.
Proof.
  intros Hk Hm. rewrite <- val_shift by done. apply val_le.
  assert (0 < 2 ^ k) by (apply Z.pow_pos_nonneg; lia).
  pose proof (Z.mul_div_le m (2 ^ k)). lia.
Qed.

Lemma val_pow2 (k e : Z) : 0 <= k -> (val (2 ^ k) e == pow2 (k + e))%Q.
Proof. intros Hk. unfold val. rewrite pow2_add, (pow2_Z k Hk). reflexivity. Qed.

(** A mantissa of [d] digits is worth at least 2^(d-1): one unit of
    the last of 53 places is at most 2^-52 of the value. *)
Lemma ulp_relative (mx ex : Z) :
  0 < mx -> (pow2 (Zdigits2 mx + ex - 53) <= eps * val mx ex)%Q.
Proof.
  intros Hm. destruct (Zdigits2_bounds mx Hm) as [Hl _].
  assert (Hd : 0 <= Zdigits2 mx - 1).
  { pose proof (Zdigits2_lower mx 0). simpl in *. lia. }
  apply Qle_trans with (eps * val (2 ^ (Zdigits2 mx - 1)) ex)%Q.
  - rewrite val_pow2 by done. unfold eps. rewrite <- pow2_add.
    apply pow2_le. lia.
  - apply Qmult_le_l; [apply pow2_pos|]. by apply val_le.
Qed.

Lemma ulp_bound (mx ex : Z) :
  0 <= mx -> ex <= fexp 53 1024 (Zdigits2 mx + ex) ->
  (val mx ex + pow2 (fexp 53 1024 (Zdigits2 mx + ex)) <= val mx ex * (1 + eps))%Q \/
  (val mx ex + pow2 (fexp 53 1024 (Zdigits2 mx + ex)) <= pow2 (-1020))%Q.
Proof.
  intros Hm He. rewrite fexp_eq in *.
  destruct (Z_le_gt_dec (-1074) (Zdigits2 mx + ex - 53)) as [Hn|Hs].
  - left. rewrite Z.max_l in * by lia.
    assert (0 < mx).
    { destruct (Z.eq_dec mx 0) as [->|]; [simpl in He; lia|lia]. }
    pose proof (ulp_relative mx ex H). lra.
  - right. rewrite Z.max_r in * by lia.
    assert (Hv : (val mx ex <= pow2 (-1021))%Q).
    { pose proof (Zdigits2_nonneg mx) as Hd.
      apply Qle_trans with (val (2 ^ Zdigits2 mx) ex).
      - apply val_le. destruct (Z.eq_dec mx 0) as [->|]; [simpl; lia|].
        destruct (Zdigits2_bounds mx); lia.
      - rewrite val_pow2 by done. apply pow2_le. lia. }
    pose proof (pow2_le (-1074) (-1021)) as H1.
    pose proof (pow2_double (-1021)) as H2.
    change (-1021 + 1) with (-1020) in H2.
    assert (-1074 <= -1021) as H3 by lia. specialize (H1 H3). lra.
Qed.

Lemma round_result_upper (m e : Z) (B : Q) :
  0 <= m -> (val m e <= B)%Q ->
  match round_result m e with
  | S754_zero s => s = false
  | S754_finite s p e' => s = false /\ (val (Z.pos p) e' <= B)%Q
  | S754_infinity s => s = false /\ (pow2 972 <= B)%Q
  | S754_nan => False
  end.
Proof.
  intros Hm HB. destruct m as [|p|p]; cbn [round_result]; [done| |lia].
  destruct (Z.leb_spec e 971) as [He|He]; [done|].
  split; [done|].
  apply Qle_trans with (val (Z.pos p) e); [|done].
  apply Qle_trans with (val 1 e); [|apply val_le; lia].
  rewrite val_one. apply pow2_le. lia.
Qed.

(** The bound on a rounded result: the result is at most [B], where [B]
    exceeds the value rounded by at most the factor 1 + 2^-52, or stays
    in the subnormal range. *)
Lemma binary_round_aux_upper (mx ex : Z) (lx : location) :
  0 <= mx ->
  lx = loc_Exact \/ ex <= fexp 53 1024 (Zdigits2 mx + ex) ->
  exists B : Q,
    ((B <= val mx ex * (1 + eps))%Q \/ (B <= pow2 (-1020))%Q) /\
    match binary_round_aux 53 1024 false mx ex lx with
    | S754_zero s => s = false
    | S754_finite s m e => s = false /\ (val (Z.pos m) e <= B)%Q
    | S754_infinity s => s = false /\ (pow2 972 <= B)%Q
    | S754_nan => False
    end.
Proof.
  intros Hm Hx.
  destruct (binary_round_aux_spec mx ex lx Hm) as (m1 & Hr & Hexact & ->).
  remember (fexp 53 1024 (Zdigits2 mx + ex)) as E1 eqn:HE1.
  remember (Z.max 0 (E1 - ex)) as k1 eqn:Hk1.
  assert (Hp1 : 0 < 2 ^ k1) by (apply Z.pow_pos_nonneg; lia).
  assert (Hq : 0 <= mx / 2 ^ k1) by (apply Z.div_pos; lia).
  assert (Hm1 : 0 <= m1) by lia.
  exists (val m1 (ex + k1)). split.
  - assert (Hgen : ex <= E1 ->
      (val m1 (ex + k1) <= val mx ex * (1 + eps))%Q \/ (val m1 (ex + k1) <= pow2 (-1020))%Q).
    { intros Hle.
      assert (He1 : ex + k1 = E1) by lia.
      assert (Hb : (val m1 (ex + k1) <= val mx ex + pow2 E1)%Q).
      { apply Qle_trans with (val (mx / 2 ^ k1 + 1) (ex + k1)); [apply val_le; lia|].
        rewrite val_plus, val_one.
        pose proof (val_div mx ex k1 ltac:(lia) Hm) as Hd.
        rewrite He1 in *. lra. }
      assert (Hle' : ex <= fexp 53 1024 (Zdigits2 mx + ex)) by lia.
      destruct (ulp_bound mx ex Hm Hle') as [H|H]; rewrite <- HE1 in H; [left|right]; lra. }
    destruct Hx as [->|Hle]; [|by apply Hgen].
    destruct (Z_le_gt_dec E1 ex) as [Hc|Hc]; [|apply Hgen; lia].
    left. assert (Hk : k1 = 0) by lia.
    rewrite Hk in *. rewrite Z.add_0_r.
    rewrite Hexact; [|done|by rewrite Z.mod_1_r].
    change (2 ^ 0) with 1. rewrite Z.div_1_r.
    pose proof (val_nonneg mx ex Hm). pose proof (pow2_pos (-52)).
    unfold eps. nra.
  - apply round_result_upper.
    + apply Z.div_pos; [done|]. apply Z.pow_pos_nonneg; lia.
    + apply val_div; lia.
Qed.

(** *** Integers as doubles *)

Lemma binary_round_aux_exact (mx ex M : Z) :
  0 < mx ->
  mx = M * 2 ^ Z.max 0 (fexp 53 1024 (Zdigits2 mx + ex) - ex) ->
  Zdigits2 M = 53 ->
  -1074 <= ex + Z.max 0 (fexp 53 1024 (Zdigits2 mx + ex) - ex) <= 971 ->
  binary_round_aux 53 1024 false mx ex loc_Exact
  = S754_finite false (Z.to_pos M)
      (ex + Z.max 0 (fexp 53 1024 (Zdigits2 mx + ex) - ex)).
Proof.
  intros Hmx HM Hd He.
  destruct (binary_round_aux_spec mx ex loc_Exact) as (m1 & _ & Hexact & ->); [lia|].
  remember (Z.max 0 (fexp 53 1024 (Zdigits2 mx + ex) - ex)) as k1 eqn:Hk1.
  assert (Hp : 0 < 2 ^ k1) by (apply Z.pow_pos_nonneg; lia).
  assert (Hm1 : m1 = M).
  { rewrite Hexact; [|done|]; rewrite HM.
    - apply Z.div_mul. lia.
    - apply Z.mod_mul. lia. }
  rewrite Hm1, Hd, fexp_eq.
  replace (Z.max 0 (Z.max (53 + (ex + k1) - 53) (-1074) - (ex + k1))) with 0 by lia.
  change (2 ^ 0) with 1. rewrite Z.div_1_r, Z.add_0_r.
  assert (0 < M) by nia.
  destruct M as [|p|p]; try lia. cbn [round_result Z.to_pos].
  destruct (Z.leb_spec (ex + k1) 971); [done|lia].
Qed.

Lemma Zdigits2_small (K : Z) : 0 < K < 2 ^ 53 -> 1 <= Zdigits2 K <= 53.
Proof.
  intros [H0 H1]. split.
  - pose proof (Zdigits2_lower K 0). simpl in *. lia.
  - apply Zdigits2_upper; lia.
Qed.

Lemma Zdigits2_canonical (K : Z) :
  0 < K < 2 ^ 53 -> Zdigits2 (K * 2 ^ (53 - Zdigits2 K)) = 53.
Proof.
  intros HK. pose proof (Zdigits2_small K HK).
  rewrite Zdigits2_shift by lia. lia.
Qed.

(** An integer below 2^53, given with any number of trailing zero bits,
    is normalized to the double with 53 mantissa bits. *)
Lemma normalize_int (K j : Z) :
  0 < K < 2 ^ 53 -> 0 <= j ->
  binary_normalize 53 1024 (K * 2 ^ j) (- j) false
  = S754_finite false (Z.to_pos (K * 2 ^ (53 - Zdigits2 K))) (Zdigits2 K - 53).
Proof.
  intros HK Hj. pose proof (Zdigits2_small K HK) as Hd.
  pose proof (Zdigits2_canonical K HK) as Hc.
  assert (Hpj : 0 < 2 ^ j) by (apply Z.pow_pos_nonneg; lia).
  assert (Hps : 0 < 2 ^ (53 - Zdigits2 K)) by (apply Z.pow_pos_nonneg; lia).
  assert (HD : Zdigits2 (K * 2 ^ j) = Zdigits2 K + j) by (apply Zdigits2_shift; lia).
  destruct (K * 2 ^ j) as [|p|p] eqn:Hp; try nia.
  unfold binary_normalize, binary_round.
  change (Z.pos (digits2_pos p)) with (Zdigits2 (Z.pos p)).
  rewrite HD, fexp_eq.
  replace (Z.max (Zdigits2 K + j + - j - 53) (-1074)) with (Zdigits2 K - 53) by lia.
  destruct (Z_lt_le_dec (Zdigits2 K - 53) (- j)) as [Hlt|Hge].
  - pose proof (shl_align_fst p (- j) (Zdigits2 K - 53) ltac:(lia)) as Hf.
    pose proof (shl_align_snd p (- j) (Zdigits2 K - 53) ltac:(lia)) as Hs.
    destruct (shl_align p (- j) (Zdigits2 K - 53)) as [mz ez].
    cbn [fst snd] in Hf, Hs. subst ez.
    assert (HM : Z.pos mz = K * 2 ^ (53 - Zdigits2 K)).
    { rewrite Hf, <- Hp, <- Z.mul_assoc, <- Z.pow_add_r by lia.
      f_equal. f_equal. lia. }
    rewrite (binary_round_aux_exact (Z.pos mz) (Zdigits2 K - 53) (K * 2 ^ (53 - Zdigits2 K)));
      rewrite ?HM, ?Hc, ?fexp_eq;
      replace (Z.max 0 (Z.max (53 + (Zdigits2 K - 53) - 53) (-1074) - (Zdigits2 K - 53)))
        with 0 by lia; rewrite ?Z.add_0_r; try done; try lia.
  - rewrite shl_align_id by lia.
    rewrite (binary_round_aux_exact (Z.pos p) (- j) (K * 2 ^ (53 - Zdigits2 K)));
      rewrite ?HD, ?fexp_eq;
      replace (Z.max 0 (Z.max (Zdigits2 K + j + - j - 53) (-1074) - - j))
        with (Zdigits2 K - 53 + j) by lia; try done; try lia.
    + f_equal. lia.
    + rewrite <- Hp, <- Z.mul_assoc, <- Z.pow_add_r by lia. f_equal. f_equal. lia.
Qed.

Lemma ofZ_canonical (K : Z) :
  0 < K < 2 ^ 53 ->
  ofZ K = S754_finite false (Z.to_pos (K * 2 ^ (53 - Zdigits2 K))) (Zdigits2 K - 53).
Proof.
  intros HK. unfold ofZ.
  rewrite <- (normalize_int K 0 HK) by lia.
  change (2 ^ 0) with 1. by rewrite Z.mul_1_r.
Qed.

Lemma normalize_ofZ (K j : Z) :
  0 <= K < 2 ^ 53 -> 0 <= j ->
  binary_normalize 53 1024 (K * 2 ^ j) (- j) false = ofZ K.
Proof.
  intros HK Hj. destruct (Z.eq_dec K 0) as [->|].
  - done.
  - rewrite normalize_int, ofZ_canonical by lia. done.
Qed.

Lemma ofZ_represents (K : Z) : 0 <= K < 2 ^ 53 -> represents (ofZ K) K.
Proof.
  intros HK. destruct (Z.eq_dec K 0) as [->|]; [done|].
  rewrite ofZ_canonical by lia.
  pose proof (Zdigits2_small K ltac:(lia)) as Hd.
  assert (Hps : 0 < 2 ^ (53 - Zdigits2 K)) by (apply Z.pow_pos_nonneg; lia).
  cbn [represents]. rewrite Z2Pos.id by nia.
  destruct (Z.eq_dec (Zdigits2 K) 53) as [E|].
  - left. rewrite E. change (2 ^ (53 - 53)) with 1. change (2 ^ (53 - 53)) with 1. lia.
  - right. split; [lia|]. f_equal. f_equal. lia.
Qed.

Lemma integer_index_represents (x : spec_float) (K : Z) :
  represents x K -> integer_index x = Some (Z.to_nat K).
Proof.
  destruct x as [s|s| |[] m e]; cbn [represents integer_index]; try done.
  - by intros ->.
  - intros [[He ->]|[He Hm]].
    + destruct (Z.leb_spec 0 e); [done|lia].
    + destruct (Z.leb_spec 0 e); [lia|].
      assert (0 < 2 ^ (- e)) by (apply Z.pow_pos_nonneg; lia).
      rewrite Hm, Z.mod_mul, Z.div_mul by lia. done.
Qed.

Lemma truncate_represents (x : spec_float) (K : Z) :
  represents x K -> truncate x = Some K.
Proof.
  destruct x as [s|s| |[] m e]; cbn [represents truncate]; try done.
  - by intros ->.
  - intros [[He ->]|[He Hm]]; cbn [cond_Zopp].
    + destruct (Z.leb_spec 0 e); [done|lia].
    + destruct (Z.leb_spec 0 e); [lia|].
      assert (0 < 2 ^ (- e)) by (apply Z.pow_pos_nonneg; lia).
      rewrite Hm, Z.div_mul by lia. done.
Qed.

Lemma ofZ_one : ofZ 1 = S754_finite false 4503599627370496 (-52).
Proof. reflexivity. Qed.

(** [x + 1] for a double that is an integer. *)
Lemma add_one (x : spec_float) (K : Z) :
  represents x K -> 0 <= K -> K + 1 < 2 ^ 53 -> add x (ofZ 1) = ofZ (K + 1).
Proof.
  intros Hx HK Hb. rewrite ofZ_one.
  destruct x as [s|s| |[] m e]; cbn [represents] in Hx; try done.
  - subst K. done.
  - unfold add, SFadd.
    assert (Hez : Z.min e (-52) <= -52) by lia.
    rewrite !shl_align_fst by lia.
    remember (Z.min e (-52)) as ez eqn:Ez. cbn [cond_Zopp].
    assert (Hsum : Z.pos m * 2 ^ (e - ez) + 4503599627370496 * 2 ^ (-52 - ez)
                   = (K + 1) * 2 ^ (- ez)).
    { change 4503599627370496 with (2 ^ 52).
      rewrite <- (Z.pow_add_r 2 52) by lia.
      replace (52 + (-52 - ez)) with (- ez) by lia.
      destruct Hx as [[He ->]|[He ->]].
      - replace (e - ez) with (e + - ez) by lia.
        rewrite Z.pow_add_r by lia. ring.
      - rewrite <- Z.mul_assoc, <- Z.pow_add_r by lia.
        replace (- e + (e - ez)) with (- ez) by lia. ring. }
    rewrite Hsum.
    pose proof (normalize_ofZ (K + 1) (- ez) ltac:(lia) ltac:(lia)) as Hn.
    by rewrite Z.opp_involutive in Hn.
Qed.

(** [n - 1] for an array length [n]. *)
Lemma sub_one (N : Z) :
  1 <= N < 2 ^ 53 -> sub (ofZ N) (ofZ 1) = ofZ (N - 1).
Proof.
  intros HN. rewrite ofZ_one, ofZ_canonical by lia.
  pose proof (Zdigits2_small N ltac:(lia)) as Hd.
  assert (Hps : 0 < 2 ^ (53 - Zdigits2 N)) by (apply Z.pow_pos_nonneg; lia).
  unfold sub, SFsub.
  replace (Z.min (Zdigits2 N - 53) (-52)) with (-52) by lia.
  rewrite !shl_align_fst by lia.
  rewrite Z2Pos.id by nia.
  cbn [cond_Zopp].
  replace (N * 2 ^ (53 - Zdigits2 N) * 2 ^ (Zdigits2 N - 53 - -52)
           - 4503599627370496 * 2 ^ (-52 - -52)) with ((N - 1) * 2 ^ 52).
  - apply (normalize_ofZ (N - 1) 52); lia.
  - rewrite <- Z.mul_assoc, <- Z.pow_add_r by lia.
    replace (53 - Zdigits2 N + (Zdigits2 N - 53 - -52)) with 52 by lia.
    change (2 ^ (-52 - -52)) with 1. change 4503599627370496 with (2 ^ 52). ring.
Qed.

Lemma ofZ_not_nan (K : Z) : 0 <= K < 2 ^ 53 -> is_nan (ofZ K) = false.
Proof.
  intros HK. destruct (Z.eq_dec K 0) as [->|]; [done|].
  by rewrite ofZ_canonical by lia.
Qed.

(** [<] on integers below 2^53. *)
Lemma ofZ_lt (a b : Z) :
  0 <= a < 2 ^ 53 -> 0 <= b < 2 ^ 53 -> lt (ofZ a) (ofZ b) = (a <? b).
Proof.
  intros Ha Hb. unfold lt, SFltb.
  destruct (Z.eq_dec a 0) as [->|Ha0]; destruct (Z.eq_dec b 0) as [->|Hb0].
  - done.
  - rewrite (ofZ_canonical b) by lia. cbn.
    symmetry. apply Z.ltb_lt. lia.
  - rewrite (ofZ_canonical a) by lia. cbn.
    symmetry. apply Z.ltb_ge. lia.
  - rewrite (ofZ_canonical a), (ofZ_canonical b) by lia.
    pose proof (Zdigits2_small a ltac:(lia)) as Hda.
    pose proof (Zdigits2_small b ltac:(lia)) as Hdb.
    destruct (Zdigits2_bounds a ltac:(lia)) as [Hla Hua].
    destruct (Zdigits2_bounds b ltac:(lia)) as [Hlb Hub].
    cbn [SFcompare].
    destruct (Z.compare_spec (Zdigits2 a - 53) (Zdigits2 b - 53)) as [E|E|E].
    + assert (Ed : Zdigits2 a = Zdigits2 b) by lia. rewrite Ed.
      assert (Hps : 0 < 2 ^ (53 - Zdigits2 b)) by (apply Z.pow_pos_nonneg; lia).
      change (Pos.compare_cont Eq ?x ?y) with (Pos.compare x y).
      rewrite <- Z2Pos.inj_compare by nia.
      destruct (Z.compare_spec (a * 2 ^ (53 - Zdigits2 b)) (b * 2 ^ (53 - Zdigits2 b)));
        symmetry; [apply Z.ltb_ge|apply Z.ltb_lt|apply Z.ltb_ge]; nia.
    + symmetry. apply Z.ltb_lt.
      assert (2 ^ Zdigits2 a <= 2 ^ (Zdigits2 b - 1)) by (apply Z.pow_le_mono_r; lia). lia.
    + symmetry. apply Z.ltb_ge.
      assert (2 ^ Zdigits2 b <= 2 ^ (Zdigits2 a - 1)) by (apply Z.pow_le_mono_r; lia). lia.
Qed.

Lemma ofZ_Math_min (a b : Z) :
  0 < a < 2 ^ 53 -> 0 <= b < 2 ^ 53 -> Math_min (ofZ a) (ofZ b) = ofZ (Z.min a b).
Proof.
  intros Ha Hb. unfold Math_min.
  rewrite !ofZ_not_nan, !ofZ_lt by lia. cbn [orb].
  destruct (Z.ltb_spec a b).
  - by rewrite Z.min_l by lia.
  - destruct (Z.ltb_spec b a).
    + by rewrite Z.min_r by lia.
    + rewrite Z.min_r by lia. by rewrite (ofZ_canonical a) by lia.
Qed.

(** An integer of 2^53 or more rounds to a double of 2^53 or more. *)
Lemma ofZ_large (K : Z) :
  2 ^ 53 <= K ->
  match ofZ K with
  | S754_finite false m e => 0 <= e /\ 2 ^ 53 <= Z.pos m * 2 ^ e
  | S754_infinity false => True
  | _ => False
  end.
Proof.
  intros HK. destruct K as [|p|p]; try lia.
  unfold ofZ, binary_normalize, binary_round.
  change (Z.pos (digits2_pos p)) with (Zdigits2 (Z.pos p)).
  remember (Z.pos p) as K eqn:Hp.
  assert (HK0 : 0 < K) by lia.
  pose proof (Zdigits2_lower K 53 ltac:(lia) HK) as Hd.
  rewrite shl_align_id by (rewrite fexp_eq; lia).
  rewrite <- Hp.
  destruct (binary_round_aux_spec K 0 loc_Exact) as (m1 & Hr & _ & ->); [lia|].
  rewrite !fexp_eq in *.
  replace (Z.max 0 (Z.max (Zdigits2 K + 0 - 53) (-1074) - 0)) with (Zdigits2 K - 53) in * by lia.
  destruct (Zdigits2_bounds K HK0) as [Hl Hu].
  assert (Hp1 : 0 < 2 ^ (Zdigits2 K - 53)) by (apply Z.pow_pos_nonneg; lia).
  assert (Hq : 2 ^ 52 <= K / 2 ^ (Zdigits2 K - 53)).
  { apply Z.div_le_lower_bound; [done|].
    rewrite <- Z.pow_add_r by lia.
    replace (Zdigits2 K - 53 + 52) with (Zdigits2 K - 1) by lia. done. }
  assert (Hm1 : 2 ^ 52 <= m1) by lia.
  pose proof (Zdigits2_lower m1 52 ltac:(lia) Hm1) as Hd1.
  destruct (Zdigits2_bounds m1 ltac:(lia)) as [Hl1 Hu1].
  replace (Z.max 0 (Z.max (Zdigits2 m1 + (0 + (Zdigits2 K - 53)) - 53) (-1074)
                    - (0 + (Zdigits2 K - 53))))
    with (Zdigits2 m1 - 53) by lia.
  assert (Hp2 : 0 < 2 ^ (Zdigits2 m1 - 53)) by (apply Z.pow_pos_nonneg; lia).
  assert (Hq2 : 2 ^ 52 <= m1 / 2 ^ (Zdigits2 m1 - 53)).
  { apply Z.div_le_lower_bound; [done|].
    rewrite <- Z.pow_add_r by lia.
    replace (Zdigits2 m1 - 53 + 52) with (Zdigits2 m1 - 1) by lia. done. }
  destruct (m1 / 2 ^ (Zdigits2 m1 - 53)) as [|q|q] eqn:Eq; try lia.
  cbn [round_result].
  destruct (Z.leb_spec (0 + (Zdigits2 K - 53) + (Zdigits2 m1 - 53)) 971); [|done].
  split; [lia|].
  assert (2 ^ 1 <= 2 ^ (0 + (Zdigits2 K - 53) + (Zdigits2 m1 - 53)))
    by (apply Z.pow_le_mono_r; lia).
  change (2 ^ 53) with (2 ^ 52 * 2 ^ 1). nia.
Qed.

Lemma represents_val (m : positive) (e K : Z) :
  represents (S754_finite false m e) K -> (val (Z.pos m) e == inject_Z K)%Q.
Proof.
  cbn [represents]. intros [[He ->]|[He Hm]].
  - unfold val. rewrite (pow2_Z e He), <- inject_Z_mult. reflexivity.
  - rewrite Hm, val_shift by lia. replace (e + - e) with 0 by lia.
    unfold val. change (pow2 0) with 1%Q. ring.
Qed.

(** [Math.floor] of a positive double below an array length. *)
Lemma Math_floor_represents (m : positive) (e N : Z) :
  N <= 2 ^ 53 -> (val (Z.pos m) e < inject_Z N)%Q ->
  exists f : Z, represents (Math_floor (S754_finite false m e)) f /\ 0 <= f < N.
Proof.
  intros HN Hv. cbn [Math_floor cond_Zopp].
  destruct (Z.leb_spec 0 e) as [He|He].
  - exists (Z.pos m * 2 ^ e).
    assert (Hr : represents (S754_finite false m e) (Z.pos m * 2 ^ e)) by (left; done).
    split; [done|]. rewrite (represents_val _ _ _ Hr), <- Zlt_Qlt in Hv.
    split; [|done]. assert (0 < 2 ^ e) by (apply Z.pow_pos_nonneg; lia). nia.
  - assert (Hp : 0 < 2 ^ (- e)) by (apply Z.pow_pos_nonneg; lia).
    assert (Hf : 0 <= Z.pos m / 2 ^ (- e)) by (apply Z.div_pos; lia).
    exists (Z.pos m / 2 ^ (- e)).
    assert (Hlt : Z.pos m / 2 ^ (- e) < N).
    { rewrite Zlt_Qlt. eapply Qle_lt_trans; [|exact Hv].
      pose proof (val_div (Z.pos m) e (- e) ltac:(lia) ltac:(lia)) as Hd.
      replace (e + - e) with 0 in Hd by lia.
      unfold val at 1 in Hd. change (pow2 0) with 1%Q in Hd. lra. }
    split; [|lia]. apply ofZ_represents. lia.
Qed.

Lemma new_Float32Array_length (maxLength : Z) (len : spec_float) (outputData : Float32Array) :
  new_Float32Array maxLength len = Some outputData ->
  exists L : Z,
    truncate len = Some L /\ 0 <= L <= maxLength /\ length outputData = Z.to_nat L.
Proof.
  unfold new_Float32Array. destruct (truncate len) as [L|]; [|done].
  destruct (Z.leb_spec 0 L), (Z.leb_spec L (2 ^ 53 - 1)), (Z.leb_spec L maxLength);
    cbn [andb]; try done.
  intros [= <-]. exists L. by rewrite length_replicate.
Qed.

(** The length that is allocated for [Math.round(y)] is at most y + 1/2. *)
Lemma allocated_length (maxLength : Z) (m : positive) (e : Z) (outputData : Float32Array) :
  maxLength < 2 ^ 53 ->
  new_Float32Array maxLength (Math_round (S754_finite false m e)) = Some outputData ->
  exists L : Z,
    length outputData = Z.to_nat L /\ 0 <= L <= maxLength /\
    (inject_Z L <= val (Z.pos m) e + (1 # 2))%Q.
Proof.
  intros Hmax Hnew.
  destruct (new_Float32Array_length _ _ _ Hnew) as (L & Ht & HL & Hlen).
  exists L. split; [done|]. split; [done|].
  revert Ht. cbn [Math_round cond_Zopp].
  destruct (Z.leb_spec 0 e) as [He|He].
  - assert (Hr : represents (S754_finite false m e) (Z.pos m * 2 ^ e)) by (left; done).
    rewrite (truncate_represents _ _ Hr). intros [= <-].
    rewrite (represents_val _ _ _ Hr). lra.
  - assert (Hp : 0 < 2 ^ (1 - e)) by (apply Z.pow_pos_nonneg; lia).
    assert (Hp' : 0 < 2 ^ (- e)) by (apply Z.pow_pos_nonneg; lia).
    remember ((2 * Z.pos m + 2 ^ (- e)) / 2 ^ (1 - e)) as k eqn:Hk.
    assert (Hk0 : 0 <= k) by (subst k; apply Z.div_pos; lia).
    assert (Hkle : (inject_Z k <= val (Z.pos m) e + (1 # 2))%Q).
    { assert (Hz : k * 2 ^ (1 - e) <= 2 * Z.pos m + 2 ^ (- e)).
      { subst k. rewrite Z.mul_comm. apply Z.mul_div_le. done. }
      apply Qmult_le_r with (pow2 (1 - e)); [apply pow2_pos|].
      apply Qle_trans with (inject_Z (2 * Z.pos m + 2 ^ (- e))).
      - rewrite (pow2_Z (1 - e)) by lia. rewrite <- inject_Z_mult. by rewrite <- Zle_Qle.
      - rewrite inject_Z_plus, inject_Z_mult.
        rewrite <- (pow2_Z (- e)) by lia.
        replace (1 - e) with (- e + 1) by lia. rewrite (pow2_add (- e) 1).
        change (pow2 1) with 2%Q. unfold val.
        assert (Hone : (pow2 e * pow2 (- e) == 1)%Q).
        { rewrite <- pow2_add. by replace (e + - e) with 0 by lia. }
        change (inject_Z 2) with 2%Q.
        assert (Hring : ((inject_Z (Z.pos m) * pow2 e + (1 # 2)) * (pow2 (- e) * 2)
                         == 2 * inject_Z (Z.pos m) * (pow2 e * pow2 (- e)) + pow2 (- e))%Q)
          by ring.
        rewrite Hring, Hone. lra. }
    destruct (Z.eqb_spec k 0) as [Hz|Hz].
    + cbn [truncate]. intros [= <-]. by rewrite Hz in Hkle.
    + destruct (Z_lt_le_dec k (2 ^ 53)) as [Hs|Hb].
      * rewrite (truncate_represents _ _ (ofZ_represents k ltac:(lia))).
        by intros [= <-].
      * pose proof (ofZ_large k Hb) as Hbig.
        destruct (ofZ k) as [s|[]| |[] m' e']; try done.
        cbn [truncate cond_Zopp]. destruct Hbig as [He' Hbig].
        destruct (Z.leb_spec 0 e'); [|lia]. intros [= <-]. lia.
Qed.

(** *** Multiplication and division of positive doubles *)

Lemma val_mul (m1 e1 m2 e2 : Z) :
  (val (m1 * m2) (e1 + e2) == val m1 e1 * val m2 e2)%Q.
Proof. unfold val. rewrite inject_Z_mult, pow2_add. ring. Qed.

Lemma mul_upper (m1 : positive) (e1 : Z) (m2 : positive) (e2 : Z) :
  exists B : Q,
    ((B <= val (Z.pos m1) e1 * val (Z.pos m2) e2 * (1 + eps))%Q \/ (B <= pow2 (-1020))%Q) /\
    match mul (S754_finite false m1 e1) (S754_finite false m2 e2) with
    | S754_zero s => s = false
    | S754_finite s m e => s = false /\ (val (Z.pos m) e <= B)%Q
    | S754_infinity s => s = false /\ (pow2 972 <= B)%Q
    | S754_nan => False
    end.
Proof.
  unfold mul, SFmul. cbn [xorb].
  destruct (binary_round_aux_upper (Z.pos (m1 * m2)) (e1 + e2) loc_Exact)
    as (B & HB & Hres); [lia|by left|].
  exists B. split; [|done].
  rewrite Pos2Z.inj_mul, val_mul in HB. done.
Qed.

Lemma SFdiv_core_binary_spec (m1 : positive) (e1 : Z) (m2 : positive) (e2 : Z) :
  exists l : location,
    SFdiv_core_binary 53 1024 (Z.pos m1) e1 (Z.pos m2) e2
    = (Z.pos m1
         * 2 ^ (e1 - e2
                - Z.min (fexp 53 1024 (Zdigits2 (Z.pos m1) + e1 - (Zdigits2 (Z.pos m2) + e2)))
                        (e1 - e2))
         / Z.pos m2,
       Z.min (fexp 53 1024 (Zdigits2 (Z.pos m1) + e1 - (Zdigits2 (Z.pos m2) + e2))) (e1 - e2),
       l).
Proof.
  unfold SFdiv_core_binary.
  remember (Z.min (fexp 53 1024 (Zdigits2 (Z.pos m1) + e1 - (Zdigits2 (Z.pos m2) + e2)))
                  (e1 - e2)) as e' eqn:He'.
  assert (Hs : 0 <= e1 - e2 - e') by lia.
  assert (Hm' : match e1 - e2 - e' with
                | Z.pos _ => Z.shiftl (Z.pos m1) (e1 - e2 - e')
                | Z0 => Z.pos m1
                | Z.neg _ => 0
                end = Z.pos m1 * 2 ^ (e1 - e2 - e')).
  { destruct (e1 - e2 - e') as [|s|s] eqn:Es; try lia.
    by rewrite Z.shiftl_mul_pow2 by lia. }
  rewrite Hm'. unfold Z.div.
  destruct (Z.div_eucl (Z.pos m1 * 2 ^ (e1 - e2 - e')) (Z.pos m2)) as [q r].
  by eexists.
Qed.

Lemma div_upper (m1 : positive) (e1 : Z) (m2 : positive) (e2 : Z) :
  exists B : Q,
    ((B * val (Z.pos m2) e2 <= val (Z.pos m1) e1 * (1 + eps))%Q \/ (B <= pow2 (-1020))%Q) /\
    match div (S754_finite false m1 e1) (S754_finite false m2 e2) with
    | S754_zero s => s = false
    | S754_finite s m e => s = false /\ (val (Z.pos m) e <= B)%Q
    | S754_infinity s => s = false /\ (pow2 972 <= B)%Q
    | S754_nan => False
    end.
Proof.
  unfold div, SFdiv. cbn [xorb].
  destruct (SFdiv_core_binary_spec m1 e1 m2 e2) as (l & ->).
  remember (Zdigits2 (Z.pos m1)) as d1 eqn:Hd1.
  remember (Zdigits2 (Z.pos m2)) as d2 eqn:Hd2.
  remember (Z.min (fexp 53 1024 (d1 + e1 - (d2 + e2))) (e1 - e2)) as e' eqn:He'.
  remember (e1 - e2 - e') as s eqn:Hs.
  remember (Z.pos m1 * 2 ^ s / Z.pos m2) as q eqn:Hq.
  assert (Hs0 : 0 <= s) by lia.
  assert (Hps : 0 < 2 ^ s) by (apply Z.pow_pos_nonneg; lia).
  assert (Hq0 : 0 <= q) by (subst q; apply Z.div_pos; lia).
  assert (Hqm : q * Z.pos m2 <= Z.pos m1 * 2 ^ s).
  { subst q. rewrite Z.mul_comm. apply Z.mul_div_le. lia. }
  assert (Hfexp : e' <= fexp 53 1024 (Zdigits2 q + e')).
  { rewrite fexp_eq in *.
    destruct (Z_le_gt_dec e' (-1074)) as [|Hgt]; [lia|].
    assert (Hs53 : 53 + d2 - d1 <= s) by lia.
    destruct (Zdigits2_bounds (Z.pos m1) ltac:(lia)) as [Hl1 _].
    destruct (Zdigits2_bounds (Z.pos m2) ltac:(lia)) as [_ Hu2].
    rewrite <- Hd1 in Hl1. rewrite <- Hd2 in Hu2.
    pose proof (Zdigits2_small 1 ltac:(lia)) as _.
    assert (Hd1p : 1 <= d1).
    { subst d1. pose proof (Zdigits2_lower (Z.pos m1) 0). simpl in *. lia. }
    assert (Hd2p : 1 <= d2).
    { subst d2. pose proof (Zdigits2_lower (Z.pos m2) 0). simpl in *. lia. }
    assert (Hbig : 2 ^ (52 + d2) <= Z.pos m1 * 2 ^ s).
    { apply Z.le_trans with (2 ^ (d1 - 1) * 2 ^ s); [|nia].
      rewrite <- Z.pow_add_r by lia. apply Z.pow_le_mono_r; lia. }
    assert (H52 : 2 ^ 52 <= q).
    { subst q. apply Z.div_le_lower_bound; [lia|].
      rewrite Z.pow_add_r in Hbig by lia. nia. }
    pose proof (Zdigits2_lower q 52 ltac:(lia) H52). lia. }
  destruct (binary_round_aux_upper q e' l Hq0 (or_intror Hfexp)) as (B & HB & Hres).
  exists B. split; [|done].
  destruct HB as [HB|HB]; [left|by right].
  assert (Hv2 : (0 < val (Z.pos m2) e2)%Q).
  { unfold val. apply Qmult_lt_0_compat; [|apply pow2_pos].
    change 0%Q with (inject_Z 0). rewrite <- Zlt_Qlt. lia. }
  assert (Hqv : (val q e' * val (Z.pos m2) e2 <= val (Z.pos m1) e1)%Q).
  { rewrite <- val_mul.
    apply Qle_trans with (val (Z.pos m1 * 2 ^ s) (e' + e2)); [by apply val_le|].
    rewrite val_shift by done. replace (e' + e2 + s) with e1 by lia. apply Qle_refl. }
  pose proof (pow2_pos (-52)) as Heps.
  apply Qle_trans with (val q e' * (1 + eps) * val (Z.pos m2) e2)%Q.
  - apply Qmult_le_compat_r; [done|]. by apply Qlt_le_weak.
  - unfold eps. 
    assert (Hring : (val q e' * (1 + pow2 (-52)) * val (Z.pos m2) e2
                     == val q e' * val (Z.pos m2) e2 * (1 + pow2 (-52)))%Q) by ring.
    rewrite Hring. apply Qmult_le_compat_r; [done|]. lra.
Qed.

(** *** The indices of the interpolation loop *)

Lemma positive_cases (x : spec_float) :
  lt (ofZ 0) x = true ->
  (exists m e, x = S754_finite false m e) \/ x = S754_infinity false.
Proof. destruct x as [s|[]| |[] m e]; try done; eauto. Qed.

Lemma pow2_small_lt_one : (pow2 (-1020) < 1)%Q.
Proof. change 1%Q with (pow2 0). by apply Qpower_lt_compat_l. Qed.

Lemma inject_Z_le_pow2 (N k : Z) : 0 <= k -> N <= 2 ^ k -> (inject_Z N <= pow2 k)%Q.
Proof. intros Hk HN. rewrite (pow2_Z k Hk). by rewrite <- Zle_Qle. Qed.

(** The arithmetic at the heart of the bound: an index [i] below the
    rounded quotient, multiplied by the rounded ratio, stays below [n]
    even after both results were rounded up, as long as [i] is below
    2^50. *)
Lemma scaled_index_below (i L N : Z) (vr vy B : Q) :
  1 <= i -> i + 1 <= L -> L <= 2 ^ 50 -> 1 <= N ->
  (0 < vr)%Q ->
  (inject_Z L <= vy + (1 # 2))%Q ->
  (vy <= B)%Q ->
  (B * vr <= inject_Z N * (1 + eps))%Q \/ (B <= pow2 (-1020))%Q ->
  (inject_Z i * vr * (1 + eps) < inject_Z N)%Q.
Proof.
  intros Hi HiL HL HN Hvr HLy HyB HB.
  assert (HiQ : (inject_Z i + 1 <= inject_Z L)%Q).
  { change 1%Q with (inject_Z 1). rewrite <- inject_Z_plus, <- Zle_Qle. lia. }
  assert (Hi1 : (1 <= inject_Z i)%Q).
  { change 1%Q with (inject_Z 1). rewrite <- Zle_Qle. lia. }
  assert (Hi50 : (inject_Z i <= 1125899906842623)%Q).
  { change 1125899906842623%Q with (inject_Z (2 ^ 50 - 1)). rewrite <- Zle_Qle. lia. }
  pose proof pow2_small_lt_one as Hsmall.
  destruct HB as [HB|HB]; [|lra].
  assert (Heps : (eps == 1 # 4503599627370496)%Q) by reflexivity.
  rewrite Heps in *.
  assert (H1 : ((inject_Z i + (1 # 2)) * vr <= B * vr)%Q).
  { apply Qmult_le_compat_r; lra. }
  assert (H3 : (inject_Z i * vr <= 1125899906842623 * vr)%Q).
  { apply Qmult_le_compat_r; lra. }
  apply Qnot_le_lt. intros H2.
  assert (H4 : (inject_Z N * (1 + (1 # 4503599627370496))
                <= inject_Z i * vr * (1 + (1 # 4503599627370496))
                   * (1 + (1 # 4503599627370496)))%Q).
  { apply Qmult_le_compat_r; [done|lra]. }
  lra.
Qed.

Lemma ratio_positive (mr : positive) (er : Z) : (0 < val (Z.pos mr) er)%Q.
Proof.
  unfold val. apply Qmult_lt_0_compat; [|apply pow2_pos].
  change 0%Q with (inject_Z 0). rewrite <- Zlt_Qlt. lia.
Qed.

Section Indices.
Variable inputData : Float32Array.
Variable mr : positive.
Variable er : Z.
Hypothesis length_positive : 1 <= Z.of_nat (length inputData).
Hypothesis length_bounded : Z.of_nat (length inputData) <= 2 ^ 50.

Lemma srcIndexFloor_represents (i : nat) :
  Z.of_nat i < 2 ^ 53 ->
  (1 <= Z.of_nat i ->
   (inject_Z (Z.of_nat i) * val (Z.pos mr) er * (1 + eps)
    < inject_Z (Z.of_nat (length inputData)))%Q) ->
  exists f : Z,
    represents (srcIndexFloor (S754_finite false mr er) i) f /\
    0 <= f < Z.of_nat (length inputData).
Proof.
  intros Hi Hbound. unfold srcIndexFloor, srcIndex, ofNat.
  destruct (Z.eq_dec (Z.of_nat i) 0) as [->|Hi0].
  { exists 0. split; [done|lia]. }
  specialize (Hbound ltac:(lia)).
  pose proof (ofZ_represents (Z.of_nat i) ltac:(lia)) as Hrep.
  rewrite ofZ_canonical in * by lia.
  pose proof (represents_val _ _ _ Hrep) as Hval.
  remember (Z.to_pos (Z.of_nat i * 2 ^ (53 - Zdigits2 (Z.of_nat i)))) as mi eqn:Hmi.
  remember (Zdigits2 (Z.of_nat i) - 53) as ei eqn:Hei.
  destruct (mul_upper mi ei mr er) as (B & HB & Hres).
  rewrite Hval in HB.
  pose proof pow2_small_lt_one as Hsmall.
  assert (HN1 : (1 <= inject_Z (Z.of_nat (length inputData)))%Q).
  { change 1%Q with (inject_Z 1). by rewrite <- Zle_Qle. }
  assert (HBN : (B < inject_Z (Z.of_nat (length inputData)))%Q).
  { destruct HB; lra. }
  destruct (mul (S754_finite false mi ei) (S754_finite false mr er))
    as [s|s| |s m e]; try done.
  - subst s. exists 0. split; [done|lia].
  - destruct Hres as [-> Hres].
    pose proof (inject_Z_le_pow2 _ 50 ltac:(lia) length_bounded) as H50.
    pose proof (pow2_le 50 972 ltac:(lia)). lra.
  - destruct Hres as [-> Hres].
    apply Math_floor_represents; [lia|lra].
Qed.

Lemma srcIndexCeil_represents (i : nat) (f : Z) :
  represents (srcIndexFloor (S754_finite false mr er) i) f ->
  0 <= f < Z.of_nat (length inputData) ->
  represents (srcIndexCeil inputData (S754_finite false mr er) i)
    (Z.min (f + 1) (Z.of_nat (length inputData) - 1)).
Proof.
  intros Hrep Hf. unfold srcIndexCeil, ofNat.
  rewrite (add_one _ f Hrep) by lia.
  rewrite sub_one by lia.
  rewrite ofZ_Math_min by lia.
  apply ofZ_represents. lia.
Qed.
End Indices.

Lemma indices_in_bounds (maxLength : Z) (inputData outputData : Float32Array)
    (mr : positive) (er : Z) (i : nat) :
  1 <= Z.of_nat (length inputData) <= maxLength -> maxLength <= 2 ^ 50 ->
  new_Float32Array maxLength (outputLength inputData (S754_finite false mr er))
    = Some outputData ->
  (i < length outputData)%nat ->
  exists f c : Z,
    represents (srcIndexFloor (S754_finite false mr er) i) f /\
    represents (srcIndexCeil inputData (S754_finite false mr er) i) c /\
    0 <= f < Z.of_nat (length inputData) /\ 0 <= c < Z.of_nat (length inputData).
Proof.
  intros Hn Hmax Hnew Hi.
  assert (Hfloor : exists f : Z,
            represents (srcIndexFloor (S754_finite false mr er) i) f /\
            0 <= f < Z.of_nat (length inputData)).
  { revert Hnew. unfold outputLength, ofNat.
    pose proof (ofZ_represents (Z.of_nat (length inputData)) ltac:(lia)) as Hrep.
    rewrite ofZ_canonical in * by lia.
    pose proof (represents_val _ _ _ Hrep) as Hval.
    remember (Z.to_pos (Z.of_nat (length inputData)
                        * 2 ^ (53 - Zdigits2 (Z.of_nat (length inputData))))) as mn.
    remember (Zdigits2 (Z.of_nat (length inputData)) - 53) as en.
    destruct (div_upper mn en mr er) as (B & HB & Hres).
    rewrite Hval in HB.
    destruct (div (S754_finite false mn en) (S754_finite false mr er))
      as [s|s| |s my ey]; try done.
    - cbn [Math_round]. intros Hnew.
      destruct (new_Float32Array_length _ _ _ Hnew) as (L & [= <-] & _ & HL).
      simpl in HL. lia.
    - destruct Hres as [-> Hres]. intros Hnew.
      destruct (allocated_length maxLength my ey outputData ltac:(lia) Hnew)
        as (L & HLlen & HL & HLy).
      apply srcIndexFloor_represents; [lia|lia|lia|].
      intros Hi1.
      apply (scaled_index_below (Z.of_nat i) L (Z.of_nat (length inputData))
               (val (Z.pos mr) er) (val (Z.pos my) ey) B);
        try done; try lia.
      apply ratio_positive. }
  destruct Hfloor as (f & Hf & Hfr).
  exists f, (Z.min (f + 1) (Z.of_nat (length inputData) - 1)).
  split; [done|]. split; [|lia].
  apply srcIndexCeil_represents; [lia|lia|done|done].
Qed.

Lemma represented_read (inputData : Float32Array) (x : spec_float) (K : Z) :
  represents x K -> 0 <= K < Z.of_nat (length inputData) ->
  integer_index x = Some (Z.to_nat K) /\
  (Z.to_nat K < length inputData)%nat /\
  is_Some (get inputData x).
Proof.
  intros Hrep HK. pose proof (integer_index_represents x K Hrep) as Hidx.
  split; [done|]. split; [lia|].
  unfold get. rewrite Hidx. apply lookup_lt_is_Some. lia.
Qed.

Lemma no_iteration (maxLength : Z) (len : spec_float) (outputData : Float32Array) (i : nat) :
  new_Float32Array maxLength len = Some outputData ->
  truncate len = Some 0 -> ~ (i < length outputData)%nat.
Proof.
  intros Hnew Ht. destruct (new_Float32Array_length _ _ _ Hnew) as (L & HL & _ & Hlen).
  rewrite Ht in HL. injection HL as <-. simpl in Hlen. lia.
Qed.


Lemma indices_for_positive_rates (maxLength : Z) (inputData outputData : Float32Array)
    (sourceSampleRate targetSampleRate : double) (i : nat) :
  (1 <= length inputData)%nat ->
  Z.of_nat (length inputData) <= maxLength -> maxLength <= 2 ^ 50 ->
  lt (ofZ 0) sourceSampleRate = true -> lt (ofZ 0) targetSampleRate = true ->
  new_Float32Array maxLength
    (outputLength inputData (div sourceSampleRate targetSampleRate)) = Some outputData ->
  (i < length outputData)%nat ->
  exists f c : Z,
    represents (srcIndexFloor (div sourceSampleRate targetSampleRate) i) f /\
    represents (srcIndexCeil inputData (div sourceSampleRate targetSampleRate) i) c /\
    0 <= f < Z.of_nat (length inputData) /\ 0 <= c < Z.of_nat (length inputData).
Proof.
  intros Hn Hmax H50 Hs Ht Hnew Hi.
  pose proof (ofZ_canonical (Z.of_nat (length inputData)) ltac:(lia)) as Hcan.
  destruct (positive_cases _ Hs) as [(ms & es & ->)| ->];
    destruct (positive_cases _ Ht) as [(mt & et & ->)| ->].
  - destruct (div_upper ms es mt et) as (B & _ & Hres).
    destruct (div (S754_finite false ms es) (S754_finite false mt et))
      as [s|s| |s mr er]; try done.
    + exfalso. revert Hnew. unfold outputLength, ofNat. rewrite Hcan.
      unfold new_Float32Array. done.
    + exfalso. apply (no_iteration _ _ _ i Hnew); [|done].
      unfold outputLength, ofNat. by rewrite Hcan.
    + destruct Hres as [-> _].
      apply (indices_in_bounds maxLength _ outputData); [lia|done|done|done].
  - exfalso. revert Hnew. unfold outputLength, ofNat. rewrite Hcan.
    unfold new_Float32Array. done.
  - exfalso. apply (no_iteration _ _ _ i Hnew); [|done].
    unfold outputLength, ofNat. by rewrite Hcan.
  - exfalso. apply (no_iteration _ _ _ i Hnew); [|done].
    unfold outputLength, ofNat. by rewrite Hcan.
Qed.

(** *** The loops *)

Lemma double_convert_loop_fmap (data : Float32Array) :
  convert_loop data = quantize <$> data.
Proof.
  unfold convert_loop, new_Int16Array.
  rewrite (for_loop_fill (fun i => quantize (ToNumber (data !! i))))
    by (rewrite length_replicate; lia).
  simpl. apply list_eq. intros i.
  rewrite !list_lookup_fmap.
  destruct (decide (i < length data)%nat) as [Hi|Hi].
  - rewrite lookup_seq_lt by done. simpl.
    destruct (lookup_lt_is_Some_2 data i Hi) as [x Hx].
    rewrite Hx. done.
  - rewrite lookup_seq_ge by lia. rewrite lookup_ge_None_2 by lia. done.
Qed.

Lemma double_interpolation_loop_fmap (inputData : Float32Array) (ratio : double)
    (outputData : Float32Array) :
  interpolation_loop inputData ratio outputData
  = (fun i => fround (interpolate inputData ratio i)) <$> seq 0 (length outputData).
Proof.
  unfold interpolation_loop.
  apply (for_loop_fill_all (fun i => fround (interpolate inputData ratio i))).
Qed.

Lemma double_resampleAudio_unfold (maxLength : Z) (inputData : Float32Array) (s t : double) :
  resampleAudio maxLength inputData s t =
    if strict_eq s t then Returned (quantize <$> inputData)
    else match new_Float32Array maxLength (outputLength inputData (div s t)) with
         | None => RangeError
         | Some outputData =>
             Returned (quantize <$>
                         ((fun i => fround (interpolate inputData (div s t) i))
                            <$> seq 0 (length outputData)))
         end.
Proof.
  unfold resampleAudio. destruct (strict_eq s t).
  - by rewrite double_convert_loop_fmap.
  - cbv zeta. destruct (new_Float32Array maxLength (outputLength inputData (div s t))); [|done].
    by rewrite double_convert_loop_fmap, double_interpolation_loop_fmap.
Qed.

End DoubleArithmetic.

(** *** The interpolation path: claims *)

(** C10 (as amended: the output array can be allocated).  For an input
    block of at least one sample and positive rates, whenever the output
    array can be allocated (its length is at most the engine's limit
    [maxLength], itself at most 2^50 elements) [resampleAudio] returns
    and every iteration of its interpolation loop reads [inputData] at
    two integral indices inside the block, [floor(i*ratio)] and
    [min(floor(i*ratio)+1, length-1)] as computed in doubles, so that no
    sample read is [undefined].  When the array cannot be allocated, the
    interpolation path raises a RangeError before the loop. *)
Theorem interpolation_loop_reads_in_bounds (maxLength : Z) (inputData : Double.Float32Array)
    (sourceSampleRate targetSampleRate : Double.double) :
  (1 <= length inputData)%nat ->
  Z.of_nat (length inputData) <= maxLength -> maxLength <= 2 ^ 50 ->
  Double.lt (Double.ofZ 0) sourceSampleRate = true ->
  Double.lt (Double.ofZ 0) targetSampleRate = true ->
  match Double.new_Float32Array maxLength
          (Double.outputLength inputData (Double.div sourceSampleRate targetSampleRate)) with
  | None =>
      Double.strict_eq sourceSampleRate targetSampleRate = false ->
      Double.resampleAudio maxLength inputData sourceSampleRate targetSampleRate = RangeError
  | Some outputData =>
      (exists int16Data : Int16Array,
         Double.resampleAudio maxLength inputData sourceSampleRate targetSampleRate
         = Returned int16Data) /\
      forall i : nat, (i < length outputData)%nat ->
        exists floorIndex ceilIndex : nat,
          Double.integer_index
            (Double.srcIndexFloor (Double.div sourceSampleRate targetSampleRate) i)
            = Some floorIndex /\
          Double.integer_index
            (Double.srcIndexCeil inputData (Double.div sourceSampleRate targetSampleRate) i)
            = Some ceilIndex /\
          (floorIndex < length inputData)%nat /\
          (ceilIndex < length inputData)%nat /\
          is_Some (Double.get inputData
                     (Double.srcIndexFloor
                        (Double.div sourceSampleRate targetSampleRate) i)) /\
          is_Some (Double.get inputData
                     (Double.srcIndexCeil inputData
                        (Double.div sourceSampleRate targetSampleRate) i))
  end.
Proof.
  intros Hn Hmax H50 Hs Ht.
  destruct (Double.new_Float32Array maxLength
              (Double.outputLength inputData (Double.div sourceSampleRate targetSampleRate)))
    as [outputData|] eqn:Hnew.
  2: { intros Hne. unfold Double.resampleAudio. by rewrite Hne, Hnew. }
  split.
  { unfold Double.resampleAudio.
    destruct (Double.strict_eq sourceSampleRate targetSampleRate); [eauto|].
    rewrite Hnew. eauto. }
  intros i Hi.
  destruct (indices_for_positive_rates maxLength inputData outputData
              sourceSampleRate targetSampleRate i Hn Hmax H50 Hs Ht Hnew Hi)
    as (f & c & Hf & Hc & Hfr & Hcr).
  destruct (represented_read inputData _ f Hf Hfr) as (Hfi & Hfl & Hfg).
  destruct (represented_read inputData _ c Hc Hcr) as (Hci & Hcl & Hcg).
  exists (Z.to_nat f), (Z.to_nat c). done.
Qed.

(** Two samples taken up from 16000 Hz to 48000 Hz: six output samples;
    from the output index 3 on, [floor(i*ratio)] is the last index of the
    block and [Math.min] keeps the second read there. *)
Lemma interpolation_loop_reads_in_bounds_witness :
  ((1 <= length Double.block2)%nat /\
   Z.of_nat (length Double.block2) <= Double.exampleLimit /\
   Double.exampleLimit <= 2 ^ 50 /\
   Double.lt (Double.ofZ 0) (Double.ofZ 16000) = true /\
   Double.lt (Double.ofZ 0) (Double.ofZ 48000) = true) /\
  ((exists int16Data : Int16Array,
      Double.resampleAudio Double.exampleLimit Double.block2
        (Double.ofZ 16000) (Double.ofZ 48000) = Returned int16Data) /\
   forall i : nat, (i < 6)%nat ->
     exists floorIndex ceilIndex : nat,
       Double.integer_index
         (Double.srcIndexFloor (Double.div (Double.ofZ 16000) (Double.ofZ 48000)) i)
         = Some floorIndex /\
       Double.integer_index
         (Double.srcIndexCeil Double.block2
            (Double.div (Double.ofZ 16000) (Double.ofZ 48000)) i)
         = Some ceilIndex /\
       (floorIndex < 2)%nat /\ (ceilIndex < 2)%nat /\
       is_Some (Double.get Double.block2
                  (Double.srcIndexFloor
                     (Double.div (Double.ofZ 16000) (Double.ofZ 48000)) i)) /\
       is_Some (Double.get Double.block2
                  (Double.srcIndexCeil Double.block2
                     (Double.div (Double.ofZ 16000) (Double.ofZ 48000)) i))) /\
  (Double.integer_index
     (Double.srcIndexFloor (Double.div (Double.ofZ 16000) (Double.ofZ 48000)) 4) = Some 1%nat /\
   Double.integer_index
     (Double.srcIndexCeil Double.block2
        (Double.div (Double.ofZ 16000) (Double.ofZ 48000)) 4) = Some 1%nat).
Proof.
  assert (H1 : (1 <= length Double.block2)%nat) by (simpl; lia).
  assert (H2 : Z.of_nat (length Double.block2) <= Double.exampleLimit) by (by vm_compute).
  assert (H3 : Double.exampleLimit <= 2 ^ 50) by (by vm_compute).
  assert (H4 : Double.lt (Double.ofZ 0) (Double.ofZ 16000) = true) by reflexivity.
  assert (H5 : Double.lt (Double.ofZ 0) (Double.ofZ 48000) = true) by reflexivity.
  split; [done|]. split; [|split; reflexivity].
  exact (interpolation_loop_reads_in_bounds Double.exampleLimit Double.block2
           (Double.ofZ 16000) (Double.ofZ 48000) H1 H2 H3 H4 H5).
Defined.

(** C10 as stated fails at positive rates, in both of its parts.  The
    function is not total: for one sample at a source rate of 2^-40 Hz
    and the target rate 16000, and at the rates 1 and 2^54,
    [round(length / ratio)] is above 2^53 - 1 and [new Float32Array]
    raises a RangeError whatever the engine's limit.  And the indices are
    not always inside the block: for three samples at the rates 1 and
    1435512693418008, [round(length / ratio)] is 4306538080254025, and
    at the last output index the product [i * ratio] rounds up to 3, the
    length of the block, where the read is [undefined]. *)
Lemma resampleAudio_positive_rates_counterexample :
  (Double.lt (Double.ofZ 0) (Double.dyadic 1 (-40)) = true /\
   Double.lt (Double.ofZ 0) (Double.ofZ 16000) = true /\
   Double.lt (Double.ofZ 0) (Double.ofZ 1) = true /\
   Double.lt (Double.ofZ 0) (Double.dyadic 1 54) = true /\
   Double.lt (Double.ofZ 0) (Double.ofZ 1435512693418008) = true) /\
  (forall maxLength : Z,
     Double.resampleAudio maxLength [Double.ofZ 1]
       (Double.dyadic 1 (-40)) (Double.ofZ 16000) = RangeError) /\
  (forall maxLength : Z,
     Double.resampleAudio maxLength [Double.ofZ 1]
       (Double.ofZ 1) (Double.dyadic 1 54) = RangeError) /\
  Double.truncate
    (Double.outputLength [Double.ofZ 1; Double.ofZ 0; Double.ofZ (-1)]
       (Double.div (Double.ofZ 1) (Double.ofZ 1435512693418008)))
    = Some 4306538080254025 /\
  forall i : nat, Z.of_nat i = 4306538080254024 ->
    Double.integer_index
      (Double.srcIndexFloor (Double.div (Double.ofZ 1) (Double.ofZ 1435512693418008)) i)
      = Some 3%nat /\
    Double.get [Double.ofZ 1; Double.ofZ 0; Double.ofZ (-1)]
      (Double.srcIndexFloor (Double.div (Double.ofZ 1) (Double.ofZ 1435512693418008)) i)
      = None.
Proof.
  split; [by vm_compute|].
  split; [|split; [|split; [by vm_compute|]]].
  - intros maxLength. rewrite double_resampleAudio_unfold.
    change (Double.strict_eq (Double.dyadic 1 (-40)) (Double.ofZ 16000)) with false.
    cbv iota. unfold Double.new_Float32Array.
    change (Double.truncate
              (Double.outputLength [Double.ofZ 1]
                 (Double.div (Double.dyadic 1 (-40)) (Double.ofZ 16000))))
      with (Some 17592186044416000).
    cbv iota beta.
    change (17592186044416000 <=? 2 ^ 53 - 1) with false.
    by rewrite andb_false_r.
  - intros maxLength. rewrite double_resampleAudio_unfold.
    change (Double.strict_eq (Double.ofZ 1) (Double.dyadic 1 54)) with false.
    cbv iota. unfold Double.new_Float32Array.
    change (Double.truncate
              (Double.outputLength [Double.ofZ 1]
                 (Double.div (Double.ofZ 1) (Double.dyadic 1 54))))
      with (Some 18014398509481984).
    cbv iota beta.
    change (18014398509481984 <=? 2 ^ 53 - 1) with false.
    by rewrite andb_false_r.
  - intros i Hi. unfold Double.get, Double.srcIndexFloor, Double.srcIndex, Double.ofNat.
    rewrite Hi. by vm_compute.
Qed.

(** C1 (as amended: double arithmetic, the store rounds to single
    precision, and the output array can be allocated).  For rates that
    differ, [resampleAudio] raises a RangeError when an array of
    [round(length / ratio)] elements cannot be allocated, and otherwise
    returns the quantization of an array [outputData] of
    [round(length / ratio)] samples, [ratio = sourceRate / targetRate];
    the sample at each index [i] is
    [input[floor(i*ratio)]*(1-t) + input[min(floor(i*ratio)+1, length-1)]*t]
    with [t = i*ratio - floor(i*ratio)], every operation being the one
    on doubles and the result being rounded to single precision. *)
Theorem resampleAudio_interpolation_path (maxLength : Z) (inputData : Double.Float32Array)
    (sourceRate targetRate : Double.double) :
  Double.strict_eq sourceRate targetRate = false ->
  let ratio := Double.div sourceRate targetRate in
  let outputLength :=
    Double.Math_round (Double.div (Double.ofNat (length inputData)) ratio) in
  match Double.new_Float32Array maxLength outputLength with
  | None => Double.resampleAudio maxLength inputData sourceRate targetRate = RangeError
  | Some _ =>
      exists outputData : Double.Float32Array,
        Double.resampleAudio maxLength inputData sourceRate targetRate
          = Returned (Double.quantize <$> outputData) /\
        Double.truncate outputLength = Some (Z.of_nat (length outputData)) /\
        forall i : nat, (i < length outputData)%nat ->
          let srcIndex := Double.mul (Double.ofNat i) ratio in
          let srcIndexFloor := Double.Math_floor srcIndex in
          let srcIndexCeil :=
            Double.Math_min (Double.add srcIndexFloor (Double.ofZ 1))
              (Double.sub (Double.ofNat (length inputData)) (Double.ofZ 1)) in
          let t := Double.sub srcIndex srcIndexFloor in
          outputData !! i
          = Some (Double.fround
                    (Double.add
                       (Double.mul (Double.ToNumber (Double.get inputData srcIndexFloor))
                          (Double.sub (Double.ofZ 1) t))
                       (Double.mul (Double.ToNumber (Double.get inputData srcIndexCeil)) t)))
  end.
Proof.
  intros Hne ratio outputLength.
  rewrite double_resampleAudio_unfold, Hne.
  fold ratio. change (Double.outputLength inputData ratio) with outputLength.
  destruct (Double.new_Float32Array maxLength outputLength) as [zeros|] eqn:Hnew; [|done].
  destruct (new_Float32Array_length _ _ _ Hnew) as (L & HL & HLr & Hlen).
  eexists. split; [reflexivity|].
  rewrite length_fmap, length_seq. split.
  - rewrite HL, Hlen. f_equal. lia.
  - intros i Hi. cbv zeta.
    rewrite list_lookup_fmap, lookup_seq_lt by done. reflexivity.
Qed.

(** The block of five samples taken down from 44100 Hz to 16000 Hz: two
    output samples, the second interpolated between the samples 21/64 and
    11/16 with a weight of about 0.75625. *)
Lemma resampleAudio_interpolation_path_witness :
  Double.strict_eq (Double.ofZ 44100) (Double.ofZ 16000) = false /\
  exists outputData : Double.Float32Array,
    Double.resampleAudio Double.exampleLimit Double.block5
      (Double.ofZ 44100) (Double.ofZ 16000) = Returned (Double.quantize <$> outputData) /\
    length outputData = 2%nat /\
    outputData !! 1%nat
    = Some (Double.fround
              (Double.add
                 (Double.mul (Double.dyadic 21 (-6))
                    (Double.sub (Double.ofZ 1) (Double.dyadic 6811694436397876 (-53))))
                 (Double.mul (Double.dyadic 11 (-4)) (Double.dyadic 6811694436397876 (-53))))) /\
    Double.quantize <$> outputData = [16895; 19656].
Proof.
  assert (H : Double.strict_eq (Double.ofZ 44100) (Double.ofZ 16000) = false) by reflexivity.
  split; [exact H|].
  pose proof (resampleAudio_interpolation_path Double.exampleLimit Double.block5
                (Double.ofZ 44100) (Double.ofZ 16000) H) as Hthm.
  cbv zeta in Hthm.
  change (Double.new_Float32Array Double.exampleLimit
            (Double.Math_round
               (Double.div (Double.ofNat (length Double.block5))
                  (Double.div (Double.ofZ 44100) (Double.ofZ 16000)))))
    with (Some (replicate 2 (S754_zero false))) in Hthm.
  destruct Hthm as (outputData & Hres & Hlen & Hsample).
  exists outputData.
  assert (Hlen2 : length outputData = 2%nat).
  { match type of Hlen with
    | ?l = _ => let v := eval vm_compute in l in change l with v in Hlen
    end.
    injection Hlen as Hlen. lia. }
  split; [exact Hres|]. split; [exact Hlen2|]. split.
  - rewrite (Hsample 1%nat) by lia. by vm_compute.
  - assert (Hrun : Double.resampleAudio Double.exampleLimit Double.block5
                     (Double.ofZ 44100) (Double.ofZ 16000) = Returned [16895; 19656])
      by (by vm_compute).
    rewrite Hrun in Hres. by injection Hres as <-.
Defined.

(** C1 as stated fails on an ordinary block at the rates of the call
    site, 44100 Hz to 16000 Hz.  At the output index 1 the claim's
    expression is 0.5999023437500001 in doubles, and 6143/10240 in exact
    arithmetic, and either quantizes to 19657; the sample that
    [resampleAudio] keeps is that double rounded to single precision,
    0.599902331829071, and the output sample is 19656. *)
Lemma resampleAudio_single_precision_store :
  Double.strict_eq (Double.ofZ 44100) (Double.ofZ 16000) = false /\
  Double.resampleAudio Double.exampleLimit Double.block5
    (Double.ofZ 44100) (Double.ofZ 16000) = Returned [16895; 19656] /\
  Double.interpolate Double.block5 (Double.div (Double.ofZ 44100) (Double.ofZ 16000)) 1
    = S754_finite false 5403439943542375 (-53) /\
  Double.quantize (S754_finite false 5403439943542375 (-53)) = 19657 /\
  Double.interpolation_loop Double.block5 (Double.div (Double.ofZ 44100) (Double.ofZ 16000))
    (replicate 2 (S754_zero false)) !! 1%nat
    = Some (S754_finite false 5403439836168192 (-53)) /\
  Double.quantize (S754_finite false 5403439836168192 (-53)) = 19656 /\
  (exists q : Q,
     interpolate block5 (div (ofZ 44100) (ofZ 16000)) 1 = Fin q /\
     (q == 6143 # 10240)%Q) /\
  quantize (interpolate block5 (div (ofZ 44100) (ofZ 16000)) 1) = 19657.
Proof.
  repeat (split; [by vm_compute|]).
  split; [|by vm_compute].
  eexists. split; [by vm_compute|]. by vm_compute.
Qed.


(** ** The lifecycle: helper lemmas *)

Ltac unfold_handlers :=
  unfold step, with_session, connect_disabled, startRecording_disabled,
    stopRecording_disabled, disconnect_disabled, connect, connect_catch,
    audioChannel_onopen, audioChannel_onerror, audioChannel_onclose,
    transcriptionChannel_onmessage, pc_onconnectionstatechange, disconnect,
    startRecording, startRecording_begin, startRecording_resume,
    startRecording_catch, stopRecording, cleanup, release_processor,
    release_mediaStream, release_audioContext, release_pc in *.

Ltac handler_cases :=
  unfold_handlers; simpl in *;
  repeat (case_match; simpl in *; simplify_eq; try done).

Lemma run_snoc (evs : list Event) (ev : Event) (s : App) :
  run (evs ++ [ev]) s = step (run evs s) ev.
Proof. unfold run. by rewrite fold_left_app. Qed.

(** An invariant of [step] holds in every reachable state. *)
Lemma run_invariant (P : App -> Prop) (Q : Event -> Prop) :
  P initial ->
  (forall s ev, P s -> Q ev -> P (step s ev)) ->
  forall evs, Forall Q evs -> P (run evs initial).
Proof.
  intros Hinit Hstep evs. induction evs as [|ev evs IH] using rev_ind; intros Hevs.
  - exact Hinit.
  - rewrite run_snoc. apply Forall_app in Hevs as [Hevs Hev].
    apply Hstep; [by apply IH|]. by inversion Hev.
Qed.

Lemma step_sessions (s : App) (ev : Event) :
  sessions (step s ev) = sessions s \/
  exists pc audioChannel transcriptionChannel,
    connectionState s = disconnected /\
    sessions (step s ev) =
      sessions s ++ [{| closure_connectionState := disconnected; session_pc := pc;
                        session_audioChannel := audioChannel;
                        session_transcriptionChannel := transcriptionChannel |}].
Proof.
  destruct ev; try (left; handler_cases; fail).
  unfold step, connect_disabled. case_bool_decide as Hst; [by left|].
  right. eexists _, _, _. split; [done|].
  simpl. by rewrite Hst.
Qed.

Lemma step_closures_disconnected (s : App) (ev : Event) :
  closures_disconnected s -> closures_disconnected (step s ev).
Proof.
  unfold closures_disconnected. intros Hs.
  destruct (step_sessions s ev) as [->|(pc & ac & tc & _ & ->)]; [done|].
  apply Forall_app. split; [done|]. by constructor.
Qed.

Lemma reachable_closures_disconnected (evs : list Event) :
  closures_disconnected (run evs initial).
Proof.
  apply (run_invariant closures_disconnected (fun _ => True)).
  - constructor.
  - intros s ev Hs _. by apply step_closures_disconnected.
  - by apply Forall_true.
Qed.

Lemma message_of_nonempty (e : Thrown) (fallback : string) :
  thrown_message_nonempty e -> fallback <> "" -> message_of e fallback <> "".
Proof. by destruct e. Qed.

Lemma step_message_invariant (s : App) (ev : Event) :
  message_invariant s -> event_messages_nonempty ev -> message_invariant (step s ev).
Proof.
  unfold message_invariant. intros [Herr Hcon] Hev.
  destruct s as [st tr msg pc ac tc ctx ms proc ss eff]. simpl in Herr, Hcon.
  destruct ev as [pc' ac' tc'|e| |o| | |k|k|k|k data|k st']; simpl in Hev;
    try destruct o as [e|? e|? ? e|? ? e|? ? ? e|? ? ?]; simpl in Hev;
    try pose proof (message_of_nonempty e "Failed to connect" Hev) as Hm1;
    try pose proof (message_of_nonempty e "Failed to start recording" Hev) as Hm2;
    handler_cases; split; intros; simplify_eq; auto.
Qed.

(** ** The lifecycle: claims *)

(** C2 (the code departs from the claim).  In every reachable state with
    [connectionState = recording], the close notification of an audio
    channel leaves the component as it is: [stopRecording] is not called
    and the state stays Recording, because the callback tests the
    [connectionState] that [connect] closed over, which is Disconnected. *)
Theorem audioChannel_close_while_recording (evs : list Event) (k : nat) :
  connectionState (run evs initial) = recording ->
  step (run evs initial) (AudioChannelClose k) = run evs initial /\
  connectionState (step (run evs initial) (AudioChannelClose k)) <> connected.
Proof.
  intros Hrec.
  assert (Hstep : step (run evs initial) (AudioChannelClose k) = run evs initial).
  { pose proof (reachable_closures_disconnected evs) as Hcl.
    unfold closures_disconnected in Hcl. rewrite Forall_lookup in Hcl.
    unfold step, with_session.
    destruct (sessions (run evs initial) !! k) as [closure|] eqn:Hk; [|done].
    unfold audioChannel_onclose. rewrite (Hcl k closure Hk). by case_decide. }
  split; [done|]. rewrite Hstep, Hrec. done.
Qed.

Lemma audioChannel_close_while_recording_witness :
  connectionState (run recording_trace initial) = recording /\
  step (run recording_trace initial) (AudioChannelClose 0) = run recording_trace initial /\
  connectionState (step (run recording_trace initial) (AudioChannelClose 0)) <> connected.
Proof.
  split; [reflexivity|].
  apply (audioChannel_close_while_recording recording_trace 0). reflexivity.
Defined.

(** C3. A click on Connect while the state is not Disconnected does
    nothing (the button is disabled: no session is created, nothing
    changes); from Disconnected it runs [connect], whose only state
    change is to Connecting. *)
Theorem connect_only_from_disconnected (s : App) (pc audioChannel transcriptionChannel : Handle) :
  let s' := step s (ClickConnect pc audioChannel transcriptionChannel) in
  match connectionState s with
  | disconnected =>
      connectionState s' = connecting /\
      errorMessage s' = "" /\
      effects s' = effects s ++ [SetConnectionState connecting; SetErrorMessage ""] /\
      length (sessions s') = S (length (sessions s))
  | _ => s' = s
  end.
Proof.
  simpl. unfold connect_disabled.
  destruct (connectionState s) eqn:Hst; try done.
  simpl. rewrite <- !app_assoc, length_app. simpl. repeat split; try done. lia.
Qed.

(** C4. After [cleanup] the six refs are null; the calls it made are the
    releases of the handles that were held, in the order processor, media
    stream, audio context, peer connection; a second [cleanup] makes no
    call and changes nothing. *)
Theorem cleanup_idempotent (s : App) :
  let s1 := cleanup s in
  (processorRef s1 = None /\ mediaStreamRef s1 = None /\ audioContextRef s1 = None /\
   pcRef s1 = None /\ audioChannelRef s1 = None /\ transcriptionChannelRef s1 = None) /\
  effects s1 = effects s ++ releases s /\
  cleanup s1 = s1 /\
  effects (cleanup s1) = effects s1.
Proof.
  destruct s as [st tr msg pc ac tc ctx ms proc ss eff].
  destruct pc, ctx, ms, proc; vm_compute; fold (@app Effect);
    rewrite <- ?List.app_assoc; simpl app; rewrite ?app_nil_r; repeat split.
Qed.

(** C5. From any state, [disconnect] runs [cleanup] and then sets the state
    to Disconnected, the transcription to the empty string and the error
    message to the empty string. *)
Theorem disconnect_from_any_state (s : App) :
  let s' := disconnect s in
  connectionState s' = disconnected /\
  transcription s' = "" /\
  errorMessage s' = "" /\
  (processorRef s' = None /\ mediaStreamRef s' = None /\ audioContextRef s' = None /\
   pcRef s' = None /\ audioChannelRef s' = None /\ transcriptionChannelRef s' = None) /\
  effects s' = effects (cleanup s) ++
                 [SetConnectionState disconnected; SetTranscription ""; SetErrorMessage ""] /\
  effects (cleanup s) = effects s ++ releases s.
Proof.
  destruct s as [st tr msg pc ac tc ctx ms proc ss eff].
  destruct pc, ctx, ms, proc; cbn; rewrite <- ?app_assoc; cbn;
    rewrite ?app_nil_r; done.
Qed.

(** On every failure of the set-up, the [catch] block of [startRecording]
    leaves the Error state with the media stream and the audio context
    released. *)
Lemma startRecording_failure_releases_stream_and_context
    (s : App) (o : RecordingSetup) (e : Thrown) :
  setup_thrown o = Some e ->
  let s' := startRecording o s in
  connectionState s' = error /\
  errorMessage s' = message_of e "Failed to start recording" /\
  mediaStreamRef s' = None /\
  audioContextRef s' = None.
Proof.
  intros Ho. destruct s as [st tr msg pc ac tc ctx ms proc ss eff].
  destruct o; simplify_eq/=; destruct ms, ctx; done.
Qed.

(** C8 (the code departs from the claim).  When [startRecording] fails
    after the processor was created, its [catch] block stops the media
    stream and closes the audio context but neither disconnects the
    processor nor clears [processorRef]; the two setters that announce the
    Error state are called before the releases. *)
Theorem startRecording_failure_keeps_processor
    (s : App) (stream context processor : Handle) (e : Thrown) :
  let s' := startRecording (GraphConnectThrows stream context processor e) s in
  connectionState s' = error /\
  errorMessage s' = message_of e "Failed to start recording" /\
  mediaStreamRef s' = None /\
  audioContextRef s' = None /\
  processorRef s' = Some processor /\
  effects s' = effects s ++
    [SetTranscription ""; SetErrorMessage "";
     SetErrorMessage (message_of e "Failed to start recording"); SetConnectionState error;
     TracksStop stream; AudioContextClose context] /\
  ProcessorDisconnect processor ∉ drop (length (effects s)) (effects s').
Proof.
  cbn. rewrite <- !app_assoc. cbn. repeat split; try done.
  rewrite drop_app_length. intros Hin.
  repeat (apply elem_of_cons in Hin as [Hin|Hin]; [discriminate|]).
  by apply elem_of_nil in Hin.
Qed.

(** C9 (as amended).  When no thrown [Error] has an empty message, every
    reachable Error state has a non-empty error message and every
    reachable Connecting state has an empty one; in a state other than
    Error the status text does not show the stored message. *)
Theorem error_message_invariant (evs : list Event) :
  Forall event_messages_nonempty evs ->
  let s := run evs initial in
  (connectionState s = error -> errorMessage s <> "") /\
  (connectionState s = connecting -> errorMessage s = "") /\
  (connectionState s <> error ->
     forall message, getStatusText (setErrorMessage message s) = getStatusText s).
Proof.
  intros Hevs s.
  destruct (run_invariant message_invariant event_messages_nonempty) with (evs := evs)
    as [Herr Hcon]; [by split| apply step_message_invariant | done |].
  split; [done|]. split; [done|].
  intros Hne message. unfold getStatusText. simpl.
  by destruct (connectionState s).
Qed.

Lemma error_message_invariant_witness :
  Forall event_messages_nonempty denied /\
  connectionState (run denied initial) = error /\
  let s := run denied initial in
  (connectionState s = error -> errorMessage s <> "") /\
  (connectionState s = connecting -> errorMessage s = "") /\
  (connectionState s <> error ->
     forall message, getStatusText (setErrorMessage message s) = getStatusText s).
Proof.
  assert (H : Forall event_messages_nonempty denied).
  { repeat constructor. simpl. discriminate. }
  split; [exact H|]. split; [reflexivity|]. exact (error_message_invariant denied H).
Defined.

(** C9 as stated fails: after a refused microphone the state is Error with
    the message of the refusal; when the peer connection then reports
    [disconnected] the state becomes Disconnected and the message stays.
    And an [Error] thrown with an empty message leaves the Error state
    with an empty message. *)
Lemma stale_error_message :
  (connectionState (run denied_then_dropped initial) = disconnected /\
   errorMessage (run denied_then_dropped initial) = "Permission denied" /\
   errorMessage (run denied_then_dropped initial) <> "") /\
  (connectionState (run [ClickConnect 1 2 3; ConnectThrows (ErrorObject "")] initial) = error /\
   errorMessage (run [ClickConnect 1 2 3; ConnectThrows (ErrorObject "")] initial) = "").
Proof. repeat split. discriminate. Qed.

(** * Further properties *)

(** ** Further properties of the quantization *)

Lemma Qle_bool_false (x y : Q) : Qle_bool x y = false -> (y < x)%Q.
Proof.
  intros E. apply Qnot_le_lt. intros H. apply Qle_bool_iff in H. congruence.
Qed.

Lemma Qtruncate_mono (x y : Q) : (x <= y)%Q -> Qtruncate x <= Qtruncate y.
Proof.
  intros Hxy. unfold Qtruncate.
  destruct (Qle_bool 0 x) eqn:Ex; destruct (Qle_bool 0 y) eqn:Ey.
  - by apply Qfloor_resp_le.
  - apply Qle_bool_iff in Ex. apply Qle_bool_false in Ey. lra.
  - apply Qle_bool_false in Ex. apply Qle_bool_iff in Ey.
    transitivity 0.
    + rewrite <- (Qceiling_Z 0). apply Qceiling_resp_le.
      change (inject_Z 0) with 0%Q. lra.
    + rewrite <- (Qfloor_Z 0). apply Qfloor_resp_le.
      by change (inject_Z 0) with 0%Q.
  - by apply Qceiling_resp_le.
Qed.

Lemma clamp_mono (p q : Q) : (p <= q)%Q -> (clamp p <= clamp q)%Q.
Proof.
  intros Hpq. unfold clamp.
  destruct (Qle_bool p (-1)) eqn:E1; destruct (Qle_bool q (-1)) eqn:E2;
    destruct (Qle_bool 1 p) eqn:E3; destruct (Qle_bool 1 q) eqn:E4;
    repeat match goal with
      | H : Qle_bool _ _ = true |- _ => apply Qle_bool_iff in H
      | H : Qle_bool _ _ = false |- _ => apply Qle_bool_false in H
      end; lra.
Qed.

Lemma quantize_spec_mono (p q : Q) : (p <= q)%Q -> quantize_spec p <= quantize_spec q.
Proof.
  intros Hpq. unfold quantize_spec. apply clamp_mono in Hpq.
  revert Hpq. generalize (clamp p) (clamp q). intros a b Hab. cbv zeta.
  apply Qtruncate_mono.
  destruct (Qlt_le_dec a 0); destruct (Qlt_le_dec b 0); lra.
Qed.

Lemma quantize_Fin_mono (p q : Q) : (p <= q)%Q -> quantize (Fin p) <= quantize (Fin q).
Proof. rewrite !quantize_Fin. apply quantize_spec_mono. Qed.

Lemma quantize_Fin_proper (p q : Q) : (p == q)%Q -> quantize (Fin p) = quantize (Fin q).
Proof.
  intros Hpq. apply Z.le_antisymm; apply quantize_Fin_mono; rewrite Hpq; apply Qle_refl.
Qed.

(** ** Further properties of the resampler *)

Lemma interpolate_Fin (inputData : Float32Array) (r : Q) (i : nat) (a b : Q) :
  get inputData (srcIndexFloor (Fin r) i) = Some (Fin a) ->
  get inputData (srcIndexCeil inputData (Fin r) i) = Some (Fin b) ->
  let x := (inject_Z (Z.of_nat i) * r)%Q in
  let w := (x + - inject_Z (Qfloor x))%Q in
  interpolate inputData (Fin r) i = Fin (a * (inject_Z 1 + - w) + b * w).
Proof. intros Ha Hb. unfold interpolate. by rewrite Ha, Hb. Qed.

Lemma get_Some_lookup (inputData : Float32Array) (k x : Num) :
  get inputData k = Some x -> exists j : nat, inputData !! j = Some x.
Proof.
  destruct k as [q| | |]; simpl; try done.
  destruct (_ && _); [|done]. by eexists.
Qed.

Lemma resampleAudio_pos (inputData : Float32Array) (s t : Q) :
  (0 < s)%Q -> (0 < t)%Q -> strict_eq (Fin s) (Fin t) = false ->
  resampleAudio inputData (Fin s) (Fin t)
  = Returned (quantize <$> (interpolate inputData (Fin (s / t))
                              <$> seq 0 (Z.to_nat (outputCount (length inputData) (s / t))))).
Proof.
  intros Hs Ht Hne. pose proof (Qdiv_pos _ _ Hs Ht) as Hr.
  rewrite resampleAudio_unfold, Hne, div_Fin_pos, outputLength_pos by done.
  rewrite new_Float32Array_ofZ by (by apply outputCount_nonneg).
  by rewrite length_replicate.
Qed.

Lemma Math_round_zero_div (r : Q) : Math_round (div (ofNat 0) (Fin r)) = NaN \/
  Math_round (div (ofNat 0) (Fin r)) = ofZ 0.
Proof.
  unfold ofNat, ofZ, div. destruct (Qeq_bool r 0) eqn:E.
  - left. reflexivity.
  - right. unfold Math_round, ofZ. do 2 f_equal.
    assert (H : (inject_Z (Z.of_nat 0) / r + (1 # 2) == (1 # 2))%Q).
    { change (inject_Z (Z.of_nat 0)) with 0%Q. unfold Qdiv. rewrite Qmult_0_l. apply Qplus_0_l. }
    by rewrite H.
Qed.

(** X1. An empty block gives an empty block, whatever the two rates are
    (zero, negative, infinite and NaN included): no RangeError is raised. *)
Theorem resampleAudio_empty (sourceRate targetRate : Num) :
  resampleAudio [] sourceRate targetRate = Returned [].
Proof.
  rewrite resampleAudio_unfold. destruct (strict_eq _ _); [done|].
  unfold outputLength. change (length []) with 0%nat.
  assert (H : Math_round (div (ofNat 0) (div sourceRate targetRate)) = NaN \/
              Math_round (div (ofNat 0) (div sourceRate targetRate)) = ofZ 0).
  { destruct (div sourceRate targetRate) as [r| | |].
    - apply Math_round_zero_div.
    - by right.
    - by right.
    - by left. }
  by destruct H as [-> | ->].
Qed.

(** Where the source position of an output index is an integer [m], the
    sample is the quantization of [inputData[m]]. *)
Lemma interpolate_at_integer_position
    (inputData : Float32Array) (r : Q) (i m : nat) (x : Num) :
  (0 < r)%Q -> Forall finite inputData ->
  Z.of_nat i < outputCount (length inputData) r ->
  (inject_Z (Z.of_nat i) * r == inject_Z (Z.of_nat m))%Q ->
  inputData !! m = Some x ->
  quantize (interpolate inputData (Fin r) i) = quantize x.
Proof.
  intros Hr Hfin Hi Hm Hx.
  destruct (reads_in_bounds inputData r i Hr Hi) as (_ & _ & [a Ha] & [b Hb]).
  rewrite Forall_lookup in Hfin.
  assert (Hfl : Qfloor (inject_Z (Z.of_nat i) * r) = Z.of_nat m).
  { by rewrite Hm, Qfloor_Z. }
  assert (Hax : a = x).
  { rewrite srcIndexFloor_Fin, get_ofZ, Hfl in Ha.
    destruct (Z.leb_spec 0 (Z.of_nat m)); [|lia].
    rewrite Nat2Z.id in Ha. congruence. }
  subst a.
  destruct (Hfin m x Hx) as [qa ->].
  destruct (get_Some_lookup _ _ _ Hb) as [jb Hjb].
  destruct (Hfin jb b Hjb) as [qb ->].
  rewrite (interpolate_Fin inputData r i qa qb Ha Hb).
  apply quantize_Fin_proper.
  rewrite Hfl, Hm. change (inject_Z 1) with 1%Q. ring.
Qed.

Lemma Qfloor_half_up (a b : Z) :
  0 < b -> Qfloor (inject_Z a / inject_Z b + (1 # 2)) = (2 * a + b) / (2 * b).
Proof.
  intros Hb. rewrite Zdiv_Qdiv. apply Qfloor_comp.
  rewrite !inject_Z_plus, !inject_Z_mult. change (inject_Z 2) with 2%Q.
  field. intros E. change 0%Q with (inject_Z 0) in E.
  apply (proj1 (inject_Z_injective _ _)) in E. lia.
Qed.

(** X4. When the source rate is [k] times the target rate, [k >= 2] an
    integer, and the samples are finite, the output is every [k]-th input
    sample quantized, with no averaging: sample [i] is the quantization of
    [inputData[k*i]], and there are [(2n + k) div 2k] samples. *)
Theorem resampleAudio_decimates
    (inputData : Float32Array) (sourceRate targetRate : Q) (k : nat) :
  (0 < targetRate)%Q -> (2 <= k)%nat ->
  (sourceRate == inject_Z (Z.of_nat k) * targetRate)%Q ->
  Forall finite inputData ->
  exists int16Data : Int16Array,
    resampleAudio inputData (Fin sourceRate) (Fin targetRate) = Returned int16Data /\
    Z.of_nat (length int16Data)
      = (2 * Z.of_nat (length inputData) + Z.of_nat k) / (2 * Z.of_nat k) /\
    forall i : nat, (i < length int16Data)%nat ->
      exists x : Num, inputData !! (k * i)%nat = Some x /\ int16Data !! i = Some (quantize x).
Proof.
  intros Ht Hk Hs Hfin.
  assert (Hk0 : (0 < inject_Z (Z.of_nat k))%Q) by (rewrite <- (Zlt_Qlt 0); lia).
  assert (Hs0 : (0 < sourceRate)%Q).
  { rewrite Hs. apply Qmult_lt_0_compat; done. }
  assert (Hr : (sourceRate / targetRate == inject_Z (Z.of_nat k))%Q).
  { rewrite Hs. field. intros E. rewrite E in Ht. by eapply Qlt_irrefl. }
  assert (Hr0 : (0 < sourceRate / targetRate)%Q) by (by apply Qdiv_pos).
  assert (Hne : strict_eq (Fin sourceRate) (Fin targetRate) = false).
  { simpl. destruct (Qeq_bool sourceRate targetRate) eqn:E; [|done].
    apply Qeq_bool_eq in E. exfalso.
    assert (H2 : (2 <= inject_Z (Z.of_nat k))%Q).
    { change 2%Q with (inject_Z 2). rewrite <- Zle_Qle. lia. }
    assert ((2 * targetRate <= inject_Z (Z.of_nat k) * targetRate)%Q).
    { apply Qmult_le_compat_r; [done|by apply Qlt_le_weak]. }
    lra. }
  rewrite resampleAudio_pos by done.
  eexists. split; [reflexivity|].
  rewrite !length_fmap, length_seq.
  assert (Hcount : outputCount (length inputData) (sourceRate / targetRate)
                   = (2 * Z.of_nat (length inputData) + Z.of_nat k) / (2 * Z.of_nat k)).
  { unfold outputCount. rewrite <- Qfloor_half_up by lia. apply Qfloor_comp. by rewrite Hr. }
  split.
  - rewrite Z2Nat.id; [done|]. by apply outputCount_nonneg.
  - intros i Hi.
    assert (Hi' : Z.of_nat i < outputCount (length inputData) (sourceRate / targetRate)) by lia.
    assert (Hpos : (inject_Z (Z.of_nat i) * (sourceRate / targetRate)
                    == inject_Z (Z.of_nat (k * i)))%Q).
    { rewrite Hr, Nat2Z.inj_mul, inject_Z_mult. ring. }
    pose proof (srcIndex_below _ _ _ Hr0 Hi') as Hbelow.
    rewrite Hpos, Qfloor_Z in Hbelow.
    destruct (lookup_lt_is_Some_2 inputData (k * i)) as [x Hx]; [lia|].
    exists x. split; [done|].
    rewrite !list_lookup_fmap, lookup_seq_lt by done. simpl. f_equal.
    by apply (interpolate_at_integer_position inputData _ i (k * i)).
Qed.

Lemma resampleAudio_decimates_witness :
  (0 < 16000)%Q /\ (2 <= 3)%nat /\ (48000 == inject_Z (Z.of_nat 3) * 16000)%Q /\
  Forall finite block6 /\
  exists int16Data : Int16Array,
    resampleAudio block6 (Fin 48000) (Fin 16000) = Returned int16Data /\
    Z.of_nat (length int16Data)
      = (2 * Z.of_nat (length block6) + Z.of_nat 3) / (2 * Z.of_nat 3) /\
    forall i : nat, (i < length int16Data)%nat ->
      exists x : Num, block6 !! (3 * i)%nat = Some x /\ int16Data !! i = Some (quantize x).
Proof.
  assert (H1 : (0 < 16000)%Q) by reflexivity.
  assert (H2 : (2 <= 3)%nat) by lia.
  assert (H3 : (48000 == inject_Z (Z.of_nat 3) * 16000)%Q) by reflexivity.
  assert (H4 : Forall finite block6).
  { repeat apply Forall_cons_2; try apply Forall_nil_2; eexists; reflexivity. }
  split; [exact H1|]. split; [exact H2|]. split; [exact H3|]. split; [exact H4|].
  exact (resampleAudio_decimates block6 48000 16000 3 H1 H2 H3 H4).
Defined.

Lemma Qtruncate_neg (x : Q) : (x < 0)%Q -> Qtruncate x = Qceiling x.
Proof.
  intros Hx. unfold Qtruncate. destruct (Qle_bool 0 x) eqn:E; [|done].
  apply Qle_bool_iff in E. lra.
Qed.

Lemma Qtruncate_nonneg (x : Q) : (0 <= x)%Q -> Qtruncate x = Qfloor x.
Proof.
  intros Hx. unfold Qtruncate. destruct (Qle_bool 0 x) eqn:E; [done|].
  apply Qle_bool_false in E. lra.
Qed.

Lemma clamp_cases (q : Q) :
  ((q <= -1)%Q /\ clamp q = (-1)%Q) \/
  ((1 <= q)%Q /\ (-1 < q)%Q /\ clamp q = 1%Q) \/
  ((-1 < q)%Q /\ (q < 1)%Q /\ clamp q = q).
Proof.
  unfold clamp. destruct (Qle_bool q (-1)) eqn:E1.
  - left. apply Qle_bool_iff in E1. done.
  - apply Qle_bool_false in E1. destruct (Qle_bool 1 q) eqn:E2.
    + right. left. apply Qle_bool_iff in E2. done.
    + right. right. apply Qle_bool_false in E2. done.
Qed.

(** The integer a clamped sample is scaled and truncated to. *)
Lemma quantize_spec_neg (q : Q) :
  (-1 < q)%Q -> (q < 0)%Q -> quantize_spec q = Qceiling (q * 32768).
Proof.
  intros H1 H2. unfold quantize_spec.
  destruct (clamp_cases q) as [[? _]|[(? & _)|(_ & _ & ->)]]; try lra.
  destruct (Qlt_le_dec q 0); [|lra]. apply Qtruncate_neg. lra.
Qed.

Lemma quantize_spec_nonneg (q : Q) :
  (0 <= q)%Q -> (q < 1)%Q -> quantize_spec q = Qfloor (q * 32767).
Proof.
  intros H1 H2. unfold quantize_spec.
  destruct (clamp_cases q) as [[? _]|[(? & _)|(_ & _ & ->)]]; try lra.
  destruct (Qlt_le_dec q 0); [lra|]. apply Qtruncate_nonneg. lra.
Qed.

Lemma quantize_spec_high (q : Q) : (1 <= q)%Q -> quantize_spec q = 32767.
Proof.
  intros H. unfold quantize_spec.
  destruct (clamp_cases q) as [[? _]|[(_ & _ & ->)|(_ & ? & _)]]; try lra.
  reflexivity.
Qed.

Lemma quantize_spec_low (q : Q) : (q <= -1)%Q -> quantize_spec q = -32768.
Proof.
  intros H. unfold quantize_spec.
  destruct (clamp_cases q) as [[_ ->]|[(_ & ? & _)|(? & _ & _)]]; try lra.
  reflexivity.
Qed.

Lemma Qceiling_gt (x : Q) (z : Z) : (inject_Z z < x)%Q -> z < Qceiling x.
Proof.
  intros H. rewrite Zlt_Qlt. eapply Qlt_le_trans; [exact H|apply Qle_ceiling].
Qed.

Lemma Qfloor_lt (x : Q) (z : Z) : (x < inject_Z z)%Q -> Qfloor x < z.
Proof.
  intros H. rewrite Zlt_Qlt. eapply Qle_lt_trans; [apply Qfloor_le|exact H].
Qed.

Lemma Qfloor_nonneg (x : Q) : (0 <= x)%Q -> 0 <= Qfloor x.
Proof.
  intros H. rewrite <- (Qfloor_Z 0). by apply Qfloor_resp_le.
Qed.

Lemma Qceiling_nonpos (x : Q) : (x <= 0)%Q -> Qceiling x <= 0.
Proof.
  intros H. rewrite <- (Qceiling_Z 0). by apply Qceiling_resp_le.
Qed.

(** The value of [quantize_spec] strictly inside (-1, 1). *)
Lemma quantize_spec_inside (q : Q) :
  (-1 < q)%Q -> (q < 1)%Q -> -32768 < quantize_spec q < 32767.
Proof.
  intros H1 H2. destruct (Qlt_le_dec q 0) as [Hneg|Hpos].
  - rewrite quantize_spec_neg by done. split.
    + apply Qceiling_gt. change (inject_Z (-32768)) with (-32768)%Q. lra.
    + assert (Qceiling (q * 32768) <= 0) by (apply Qceiling_nonpos; lra). lia.
  - rewrite quantize_spec_nonneg by done. split.
    + assert (0 <= Qfloor (q * 32767)) by (apply Qfloor_nonneg; lra). lia.
    + apply Qfloor_lt. change (inject_Z 32767) with 32767%Q. lra.
Qed.

(** X7. The quantization of a finite sample is 32767 exactly when the
    sample is at least 1, and -32768 exactly when it is at most -1. *)
Theorem quantize_full_scale (q : Q) :
  (quantize (Fin q) = 32767 <-> (1 <= q)%Q) /\
  (quantize (Fin q) = -32768 <-> (q <= -1)%Q).
Proof.
  rewrite quantize_Fin. split; split.
  - intros H. apply Qnot_lt_le. intros Hlt.
    destruct (Qlt_le_dec (-1) q) as [Hq|Hq].
    + pose proof (quantize_spec_inside q Hq Hlt). lia.
    + rewrite quantize_spec_low in H by done. discriminate.
  - apply quantize_spec_high.
  - intros H. apply Qnot_lt_le. intros Hlt.
    destruct (Qlt_le_dec q 1) as [Hq|Hq].
    + pose proof (quantize_spec_inside q Hlt Hq). lia.
    + rewrite quantize_spec_high in H by done. discriminate.
  - apply quantize_spec_low.
Qed.

Lemma quantize_full_scale_witness :
  (1 <= 3 # 2)%Q /\ quantize (Fin (3 # 2)) = 32767 /\
  (- (5 # 4) <= -1)%Q /\ quantize (Fin (- (5 # 4))) = -32768.
Proof.
  assert (H1 : (1 <= 3 # 2)%Q) by discriminate.
  assert (H2 : (- (5 # 4) <= -1)%Q) by discriminate.
  split; [exact H1|]. split.
  - exact (proj2 (proj1 (quantize_full_scale (3 # 2))) H1).
  - split; [exact H2|]. exact (proj2 (proj2 (quantize_full_scale (- (5 # 4)))) H2).
Defined.

(** X6. Quantization preserves the order of finite samples and stays in
    the signed 16-bit range: a store into the [Int16Array] never wraps. *)
Theorem quantize_monotone (p q : Q) :
  (p <= q)%Q ->
  -32768 <= quantize (Fin p) /\ quantize (Fin p) <= quantize (Fin q) /\
  quantize (Fin q) <= 32767.
Proof.
  intros Hpq. split; [|split].
  - rewrite quantize_Fin. apply (scaled_truncate_range (clamp p)), clamp_range.
  - by apply quantize_Fin_mono.
  - rewrite quantize_Fin. apply (scaled_truncate_range (clamp q)), clamp_range.
Qed.

Lemma quantize_monotone_witness :
  ((1 # 4) <= (1 # 2))%Q /\
  -32768 <= quantize (Fin (1 # 4)) /\ quantize (Fin (1 # 4)) <= quantize (Fin (1 # 2)) /\
  quantize (Fin (1 # 2)) <= 32767.
Proof.
  assert (H : ((1 # 4) <= (1 # 2))%Q) by discriminate.
  split; [exact H|]. exact (quantize_monotone (1 # 4) (1 # 2) H).
Defined.

(** X8. The quantization of a finite sample is 0 exactly when the sample
    lies strictly between -1/32768 and 1/32767: the fraction is dropped
    towards zero, on both sides. *)
Theorem quantize_dead_zone (q : Q) :
  quantize (Fin q) = 0 <-> (- (1 # 32768) < q)%Q /\ (q < 1 # 32767)%Q.
Proof.
  rewrite quantize_Fin. split.
  - intros H.
    destruct (Qlt_le_dec (-1) q) as [Hlo|Hlo];
      [|rewrite quantize_spec_low in H by done; discriminate].
    destruct (Qlt_le_dec q 1) as [Hhi|Hhi];
      [|rewrite quantize_spec_high in H by done; discriminate].
    destruct (Qlt_le_dec q 0) as [Hneg|Hpos].
    + rewrite quantize_spec_neg in H by done. split; [|lra].
      pose proof (Qceiling_lt (q * 32768)) as Hc. rewrite H in Hc.
      change (inject_Z (0 - 1)) with (-1)%Q in Hc. lra.
    + rewrite quantize_spec_nonneg in H by done. split; [lra|].
      pose proof (Qlt_floor (q * 32767)) as Hf. rewrite H in Hf.
      change (inject_Z (0 + 1)) with 1%Q in Hf. lra.
  - intros [Hlo Hhi].
    destruct (Qlt_le_dec q 0) as [Hneg|Hpos].
    + rewrite quantize_spec_neg by lra.
      assert (-1 < Qceiling (q * 32768)).
      { apply Qceiling_gt. change (inject_Z (-1)) with (-1)%Q. lra. }
      assert (Qceiling (q * 32768) <= 0) by (apply Qceiling_nonpos; lra). lia.
    + rewrite quantize_spec_nonneg by lra.
      assert (Qfloor (q * 32767) < 1).
      { apply Qfloor_lt. change (inject_Z 1) with 1%Q. lra. }
      assert (0 <= Qfloor (q * 32767)) by (apply Qfloor_nonneg; lra). lia.
Qed.

Lemma quantize_dead_zone_witness :
  (- (1 # 32768) < 1 # 40000)%Q /\ (1 # 40000 < 1 # 32767)%Q /\
  quantize (Fin (1 # 40000)) = 0.
Proof.
  assert (H1 : (- (1 # 32768) < 1 # 40000)%Q) by reflexivity.
  assert (H2 : (1 # 40000 < 1 # 32767)%Q) by reflexivity.
  split; [exact H1|]. split; [exact H2|].
  exact (proj2 (quantize_dead_zone (1 # 40000)) (conj H1 H2)).
Defined.

(** ** Further properties of the lifecycle *)







Lemma step_resource_invariant (s : App) (ev : Event) :
  resource_invariant s -> resource_invariant (step s ev).
Proof.
  unfold resource_invariant, refs_grouped, held_by_state, holds_nothing.
  destruct s as [st tr msg pc ac tc ctx ms proc ss eff]. simpl.
  intros Hinv.
  destruct ev as [pc' ac' tc'|e| |o| | |k|k|k|k data|k st'];
    try destruct o as [e|? e|? ? e|? ? e|? ? ? e|? ? ?];
    unfold_handlers; simpl in *;
    repeat (case_match; simpl in *; try discriminate);
    intuition (try congruence; try discriminate).
Qed.

(** X10. In every reachable state the two channel refs are set exactly when
    [pcRef] is, an audio context is held only together with a media stream,
    and the state determines what is held: all six refs are null in
    Disconnected, the peer connection and both channels are set in
    Connecting, and the processor, the media stream and the audio context
    are set in Recording. *)
Theorem reachable_resource_invariant (evs : list Event) :
  let s := run evs initial in
  (audioChannelRef s = None <-> pcRef s = None) /\
  (transcriptionChannelRef s = None <-> pcRef s = None) /\
  (mediaStreamRef s = None -> audioContextRef s = None) /\
  match connectionState s with
  | disconnected =>
      processorRef s = None /\ mediaStreamRef s = None /\ audioContextRef s = None /\
      pcRef s = None /\ audioChannelRef s = None /\ transcriptionChannelRef s = None
  | connecting =>
      pcRef s <> None /\ audioChannelRef s <> None /\ transcriptionChannelRef s <> None
  | recording =>
      processorRef s <> None /\ mediaStreamRef s <> None /\ audioContextRef s <> None
  | connected | error => True
  end.
Proof.
  destruct (run_invariant resource_invariant (fun _ => True)) with (evs := evs)
    as [(H1 & H2 & H3) H4].
  - by repeat split.
  - intros s ev Hs _. by apply step_resource_invariant.
  - by apply Forall_true.
  - unfold held_by_state, holds_nothing in H4. cbv zeta.
    split; [done|]. split; [done|]. split; [done|].
    destruct (connectionState (run evs initial)); try done.
    split; [done|]. split; intros E; [apply H1 in E|apply H2 in E]; done.
Qed.

Lemma reachable_resource_invariant_witness :
  connectionState (run recording_trace initial) = recording /\
  processorRef (run recording_trace initial) <> None /\
  mediaStreamRef (run recording_trace initial) <> None /\
  audioContextRef (run recording_trace initial) <> None.
Proof.
  split; [reflexivity|].
  exact (proj2 (proj2 (proj2 (reachable_resource_invariant recording_trace)))).
Defined.

Ltac compute_app :=
  vm_compute; fold (@app Effect); fold (@app Session);
  rewrite <- ?List.app_assoc; simpl app; rewrite ?app_nil_r.

(** X11. From any state [stopRecording] releases the processor, the media
    stream and the audio context, in that order, sets the state to
    Connected and leaves the peer connection, the two channels, the
    transcript and the error message as they are; a second call releases
    nothing. *)
Theorem stopRecording_keeps_connection (s : App) :
  let s' := stopRecording s in
  connectionState s' = connected /\
  (processorRef s' = None /\ mediaStreamRef s' = None /\ audioContextRef s' = None) /\
  (pcRef s' = pcRef s /\ audioChannelRef s' = audioChannelRef s /\
   transcriptionChannelRef s' = transcriptionChannelRef s) /\
  (transcription s' = transcription s /\ errorMessage s' = errorMessage s) /\
  effects s' = effects s ++ recording_releases s ++ [SetConnectionState connected] /\
  effects (stopRecording s') = effects s' ++ [SetConnectionState connected].
Proof.
  destruct s as [st tr msg pc ac tc ctx ms proc ss eff].
  destruct ctx, ms, proc; compute_app; repeat split.
Qed.

(** X13. A failed handshake and a peer connection that reports [failed]
    set the message, set Error and then release everything the component
    holds; a peer connection that reports [disconnected] or [closed] sets
    Disconnected, keeps the message and the transcript, and releases
    everything; an error of the audio channel sets its message and Error
    and releases nothing. *)
Theorem failure_paths_release (s : App) (e : Thrown) :
  (let s' := connect_catch e s in
   connectionState s' = error /\ errorMessage s' = message_of e "Failed to connect" /\
   holds_nothing s' /\
   effects s' = effects s ++ [SetErrorMessage (message_of e "Failed to connect");
                              SetConnectionState error] ++ releases s) /\
  (let s' := pc_onconnectionstatechange pc_failed s in
   connectionState s' = error /\ errorMessage s' = "Connection failed" /\
   holds_nothing s' /\
   effects s' = effects s ++ [SetErrorMessage "Connection failed";
                              SetConnectionState error] ++ releases s) /\
  (forall st, st = pc_disconnected \/ st = pc_closed ->
   let s' := pc_onconnectionstatechange st s in
   connectionState s' = disconnected /\ errorMessage s' = errorMessage s /\
   transcription s' = transcription s /\ holds_nothing s' /\
   effects s' = effects s ++ [SetConnectionState disconnected] ++ releases s) /\
  (let s' := audioChannel_onerror s in
   connectionState s' = error /\ errorMessage s' = "Audio channel error occurred" /\
   pcRef s' = pcRef s /\ audioChannelRef s' = audioChannelRef s /\
   transcriptionChannelRef s' = transcriptionChannelRef s /\
   audioContextRef s' = audioContextRef s /\ mediaStreamRef s' = mediaStreamRef s /\
   processorRef s' = processorRef s /\
   effects s' = effects s ++ [SetErrorMessage "Audio channel error occurred";
                              SetConnectionState error]).
Proof.
  unfold holds_nothing.
  destruct s as [st0 tr msg pc ac tc ctx ms proc ss eff].
  split; [|split; [|split]].
  - destruct e, pc, ctx, ms, proc; compute_app; repeat split.
  - destruct pc, ctx, ms, proc; compute_app; repeat split.
  - intros st [-> | ->]; destruct pc, ctx, ms, proc; compute_app; repeat split.
  - compute_app; repeat split.
Qed.

Lemma failure_paths_release_witness :
  holds_nothing (pc_onconnectionstatechange pc_closed (run recording_trace initial)) /\
  connectionState (pc_onconnectionstatechange pc_closed (run recording_trace initial))
    = disconnected.
Proof.
  destruct (failure_paths_release (run recording_trace initial) NotAnError)
    as (_ & _ & H & _).
  destruct (H pc_closed (or_intror eq_refl)) as (H1 & _ & _ & H2 & _).
  split; [exact H2|exact H1].
Defined.

(** X14. From any state other than Disconnected, a click on Disconnect
    followed by a click on Connect releases what was held and starts a
    fresh session: Connecting, empty transcript and message, the refs
    holding the new peer connection and channels and nothing else. *)
Theorem disconnect_then_connect (s : App) (pc audioChannel transcriptionChannel : Handle) :
  connectionState s <> disconnected ->
  let s' := run [ClickDisconnect; ClickConnect pc audioChannel transcriptionChannel] s in
  connectionState s' = connecting /\ transcription s' = "" /\ errorMessage s' = "" /\
  pcRef s' = Some pc /\ audioChannelRef s' = Some audioChannel /\
  transcriptionChannelRef s' = Some transcriptionChannel /\
  processorRef s' = None /\ mediaStreamRef s' = None /\ audioContextRef s' = None /\
  effects s' = effects s ++ releases s ++
    [SetConnectionState disconnected; SetTranscription ""; SetErrorMessage "";
     SetConnectionState connecting; SetErrorMessage ""] /\
  length (sessions s') = S (length (sessions s)).
Proof.
  destruct s as [st tr msg pc0 ac tc ctx ms proc ss eff]. simpl. intros Hst.
  destruct st; [done| | | |];
    destruct pc0, ctx, ms, proc;
    (repeat split; [compute_app; reflexivity ..|]);
    vm_compute; fold (@app Session); fold (@length Session);
    rewrite length_app; simpl; lia.
Qed.

Lemma disconnect_then_connect_witness :
  connectionState (run denied initial) <> disconnected /\
  let s := run denied initial in
  let s' := run [ClickDisconnect; ClickConnect 7 8 9] s in
  connectionState s' = connecting /\ transcription s' = "" /\ errorMessage s' = "" /\
  pcRef s' = Some 7%nat /\ audioChannelRef s' = Some 8%nat /\
  transcriptionChannelRef s' = Some 9%nat /\
  processorRef s' = None /\ mediaStreamRef s' = None /\ audioContextRef s' = None /\
  effects s' = effects s ++ releases s ++
    [SetConnectionState disconnected; SetTranscription ""; SetErrorMessage "";
     SetConnectionState connecting; SetErrorMessage ""] /\
  length (sessions s') = S (length (sessions s)).
Proof.
  assert (H : connectionState (run denied initial) <> disconnected) by discriminate.
  split; [exact H|].
  exact (disconnect_then_connect (run denied initial) 7 8 9 H).
Defined.

Lemma audioChannel_close_no_change (s : App) (k : nat) :
  closures_disconnected s -> step s (AudioChannelClose k) = s.
Proof.
  intros Hcl. unfold closures_disconnected in Hcl. rewrite Forall_lookup in Hcl.
  unfold step, with_session.
  destruct (sessions s !! k) as [closure|] eqn:Hk; [|done].
  unfold audioChannel_onclose. rewrite (Hcl k closure Hk). by case_decide.
Qed.

Lemma step_transition (s : App) (ev : Event) :
  closures_disconnected s ->
  connectionState (step s ev) <> connectionState s ->
  enters (connectionState (step s ev)) ev /\
  from_option (fun st => connectionState s = st) True (required_state ev).
Proof.
  intros Hcl Hne.
  destruct ev as [pc' ac' tc'|e| |o| | |k|k|k|k data|k st'].
  - revert Hne. unfold step, connect_disabled. case_bool_decide as Hst; [done|].
    intros _. simpl. split; [by eexists _, _, _|done].
  - split; [|done]. destruct s; simpl in *.
    unfold connect_catch, cleanup, release_processor, release_mediaStream,
      release_audioContext, release_pc; simpl.
    repeat case_match; simpl; left; by eexists.
  - revert Hne. unfold step, startRecording_disabled. case_bool_decide; [done|].
    simpl. done.
  - split; [|done]. destruct s as [st tr msg pc ac tc ctx ms proc ss eff].
    destruct o; simpl;
      try (right; left; eexists _, _; split; [reflexivity|reflexivity]);
      try (by eexists _, _, _).
    all: unfold startRecording_catch, release_mediaStream, release_audioContext; simpl;
      repeat case_match; simpl; right; left; eexists _, _; split; reflexivity.
  - revert Hne. unfold step, stopRecording_disabled. case_bool_decide as Hst; [done|].
    intros _. split; [|done].
    destruct s as [st tr msg pc ac tc ctx ms proc ss eff]. simpl in *.
    unfold stopRecording, release_processor, release_mediaStream, release_audioContext;
      simpl. repeat case_match; simpl; by right.
  - revert Hne. unfold step, disconnect_disabled. case_bool_decide as Hst; [done|].
    intros _. split; [|done].
    destruct s as [st tr msg pc ac tc ctx ms proc ss eff]. simpl in *.
    unfold disconnect, cleanup, release_processor, release_mediaStream,
      release_audioContext, release_pc; simpl. repeat case_match; simpl; by left.
  - revert Hne. unfold step, with_session. case_match; [|done]. intros _.
    split; [|done]. simpl. left. by eexists.
  - revert Hne. unfold step, with_session. case_match; [|done]. intros _.
    split; [|done]. simpl. right. right. left. by eexists.
  - by rewrite audioChannel_close_no_change in Hne.
  - exfalso. apply Hne. unfold step, with_session. case_match; [|done].
    destruct data as [|text|m|]; simpl; try done. by destruct (ToBoolean text).
  - revert Hne. unfold step, with_session. case_match; [|done].
    split; [|done]. revert Hne.
    destruct s as [st tr msg pc ac tc ctx ms proc ss eff].
    destruct st'; simpl; try done; intros _;
      unfold cleanup, release_processor, release_mediaStream,
        release_audioContext, release_pc; simpl; repeat case_match; simpl.
    all: try (right; eexists; by left).
    all: try (right; eexists; by right).
    all: right; right; right; by eexists.
Qed.

(** X15. In a reachable state the connection state changes only for these
    causes: to Connecting by a click on Connect, to Connected by the open
    of an audio channel or a click on Stop Recording, to Recording by the
    completion of a recording set-up, to Disconnected by a click on
    Disconnect or a peer connection reporting [disconnected] or [closed],
    to Error by a failure of the handshake, of the recording set-up, of
    the audio channel or of the peer connection; and a click on Connect,
    Start Recording or Stop Recording has an effect only in Disconnected,
    Connected and Recording respectively. *)
Theorem transition_causes (evs : list Event) (ev : Event) :
  let s := run evs initial in
  connectionState (step s ev) <> connectionState s ->
  enters (connectionState (step s ev)) ev /\
  from_option (fun st => connectionState s = st) True (required_state ev).
Proof.
  intros s. apply step_transition. apply reachable_closures_disconnected.
Qed.

Lemma transition_causes_witness :
  connectionState (step (run [ClickConnect 1 2 3] initial) (AudioChannelOpen 0))
    <> connectionState (run [ClickConnect 1 2 3] initial) /\
  enters (connectionState (step (run [ClickConnect 1 2 3] initial) (AudioChannelOpen 0)))
    (AudioChannelOpen 0) /\
  from_option (fun st => connectionState (run [ClickConnect 1 2 3] initial) = st) True
    (required_state (AudioChannelOpen 0)).
Proof.
  assert (H : connectionState (step (run [ClickConnect 1 2 3] initial) (AudioChannelOpen 0))
              <> connectionState (run [ClickConnect 1 2 3] initial)) by discriminate.
  split; [exact H|].
  exact (transition_causes [ClickConnect 1 2 3] (AudioChannelOpen 0) H).
Defined.

(** ** The status line and the audio callback *)

(** X16. Two component states with the same status text have the same
    connection state and, in Error, the same error message; the class of
    the status box is the same exactly when the connection state is. *)
Theorem status_identifies_state (s1 s2 : App) :
  (getStatusText s1 = getStatusText s2 ->
     connectionState s1 = connectionState s2 /\
     (connectionState s1 = error -> errorMessage s1 = errorMessage s2)) /\
  (getStatusColor s1 = getStatusColor s2 <-> connectionState s1 = connectionState s2).
Proof.
  unfold getStatusText, getStatusColor. split; [|split].
  - destruct (connectionState s1), (connectionState s2); simpl; try discriminate;
      try (intros _; split; [reflexivity|discriminate]).
    intros H. split; [done|]. intros _. by simplify_eq.
  - destruct (connectionState s1), (connectionState s2); simpl; try done; discriminate.
  - by intros ->.
Qed.

Lemma status_identifies_state_witness :
  getStatusText (run denied initial) = getStatusText (setTranscription "x" (run denied initial)) /\
  connectionState (run denied initial)
    = connectionState (setTranscription "x" (run denied initial)) /\
  (connectionState (run denied initial) = error ->
   errorMessage (run denied initial) = errorMessage (setTranscription "x" (run denied initial))).
Proof.
  assert (H : getStatusText (run denied initial)
              = getStatusText (setTranscription "x" (run denied initial))) by reflexivity.
  split; [exact H|].
  exact (proj1 (status_identifies_state (run denied initial)
                  (setTranscription "x" (run denied initial))) H).
Defined.

(** X18. In a reachable Disconnected state the audio callback sends
    nothing, whatever the chunk, the rate and the state of the channels. *)
Theorem onaudioprocess_when_disconnected
    (readyState : Handle -> RTCDataChannelState) (send_throws : bool)
    (sourceSampleRate : Num) (inputData : Float32Array) (evs : list Event) :
  connectionState (run evs initial) = disconnected ->
  let outcome :=
    onaudioprocess readyState send_throws sourceSampleRate inputData (run evs initial) in
  outcome = NothingSent \/ outcome = Uncaught.
Proof.
  intros Hst.
  destruct (run_invariant resource_invariant (fun _ => True)) with (evs := evs)
    as [_ H4].
  - by repeat split.
  - intros s ev Hs _. by apply step_resource_invariant.
  - by apply Forall_true.
  - unfold held_by_state in H4. rewrite Hst in H4.
    destruct H4 as (_ & _ & _ & _ & Hnull & _).
    cbv zeta. unfold onaudioprocess. rewrite Hnull.
    destruct (resampleAudio _ _ _); auto.
Qed.

Lemma onaudioprocess_when_disconnected_witness :
  connectionState (run denied_then_dropped initial) = disconnected /\
  let outcome :=
    onaudioprocess (fun _ => dc_open) false (ofZ 48000) block6
      (run denied_then_dropped initial) in
  outcome = NothingSent \/ outcome = Uncaught.
Proof.
  split; [reflexivity|].
  exact (onaudioprocess_when_disconnected (fun _ => dc_open) false (ofZ 48000) block6
           denied_then_dropped eq_refl).
Defined.

(** X12. In a state that holds no recording object, a completed
    [startRecording] followed by [stopRecording] releases exactly the three
    objects acquired, processor first, and gives back the refs as they
    were, in state Connected with an empty transcript and message. *)
Theorem start_stop_round_trip (s : App) (stream context processor : Handle) :
  processorRef s = None -> mediaStreamRef s = None -> audioContextRef s = None ->
  let s' := stopRecording (startRecording (SetupCompletes stream context processor) s) in
  connectionState s' = connected /\ transcription s' = "" /\ errorMessage s' = "" /\
  (processorRef s' = None /\ mediaStreamRef s' = None /\ audioContextRef s' = None) /\
  (pcRef s' = pcRef s /\ audioChannelRef s' = audioChannelRef s /\
   transcriptionChannelRef s' = transcriptionChannelRef s) /\
  effects s' = effects s ++
    [SetTranscription ""; SetErrorMessage ""; SetConnectionState recording;
     ProcessorDisconnect processor; TracksStop stream; AudioContextClose context;
     SetConnectionState connected].
Proof.
  destruct s as [st tr msg pc ac tc ctx ms proc ss eff]. simpl.
  intros -> -> ->. compute_app. repeat split.
Qed.

Lemma start_stop_round_trip_witness :
  processorRef (run connected_trace initial) = None /\
  mediaStreamRef (run connected_trace initial) = None /\
  audioContextRef (run connected_trace initial) = None /\
  let s := run connected_trace initial in
  let s' := stopRecording (startRecording (SetupCompletes 4 5 6) s) in
  connectionState s' = connected /\ transcription s' = "" /\ errorMessage s' = "" /\
  (processorRef s' = None /\ mediaStreamRef s' = None /\ audioContextRef s' = None) /\
  (pcRef s' = pcRef s /\ audioChannelRef s' = audioChannelRef s /\
   transcriptionChannelRef s' = transcriptionChannelRef s) /\
  effects s' = effects s ++
    [SetTranscription ""; SetErrorMessage ""; SetConnectionState recording;
     ProcessorDisconnect 6; TracksStop 4; AudioContextClose 5;
     SetConnectionState connected].
Proof.
  split; [reflexivity|]. split; [reflexivity|]. split; [reflexivity|].
  exact (start_stop_round_trip (run connected_trace initial) 4 5 6
           eq_refl eq_refl eq_refl).
Defined.
